(** * Debouncer: the GPIO pin debouncer of Disc_Step_Sequencer/debouncer.py

    A shallow embedding of the [Debouncer] class and proofs about its
    [update] state machine.

    Modelling choices.
    - [self.state] is a Python integer used as a bit set; it is a [Z] here and
      the four private helpers are the bitwise operations of the source.
    - [time.monotonic()] and the sampled callable [self.f] are the two things
      the class reads from its surroundings.  Each is an oracle: the k-th call
      returns the k-th element of a sequence, and a [World] counts how many
      calls were made so far.  [__init__] and [update] are computations in
      the state monad over [World], in the order of the source.
    - Clock readings, [previous_time] and the interval are Python floats.  A
      [Format] gives the floats, the rational each one stands for and the
      rounding to the nearest float; the difference of two floats is the
      exact difference of their values, rounded, and a comparison compares
      the values.  The development holds for every format whose rounding
      is monotone and leaves the floats themselves alone.  [binary64] is
      the format of Python's floats, IEEE 754 double precision with
      rounding to nearest, ties to even, and with subnormal numbers;
      infinities, NaN and overflow are left out.
    - [self.f] returns a [bool] (the class compares its result with a
      [bool]) and does not raise. *)

From Stdlib Require Import ZArith QArith Qround Qpower Bool Lia Lqa.

Local Open Scope Z_scope.

(** ** Floating-point numbers *)

Record Format : Type := mkFormat {
  float : Type;
  toQ : float -> Q;          (* the number a float stands for *)
  nearest : Q -> float;      (* rounding *)
  fzero : float;             (* the float 0.0, also what the integer 0 becomes *)
  nearest_monotone :
    forall x y : Q, (x <= y)%Q -> (toQ (nearest x) <= toQ (nearest y))%Q;
  nearest_exact :
    forall a : float, (toQ (nearest (toQ a)) == toQ a)%Q;
  fzero_exact : (toQ fzero == 0)%Q
}.

Arguments toQ {_} _.
Arguments nearest {_} _.
Arguments fzero {_}.

(** [a - b] on floats. *)
Definition fsub {fmt : Format} (a b : float fmt) : float fmt :=
  nearest (toQ a - toQ b).

(** [a >= b] on floats. *)
Definition fge {fmt : Format} (a b : float fmt) : bool :=
  Qle_bool (toQ b) (toQ a).

(** ** Double precision

    Rounding of a rational to the nearest IEEE 754 double, as a rational. *)

Module Binary64.

(** [2 ^ e] for an integer exponent of either sign. *)
Definition pow2 (e : Z) : Q := (2 ^ e)%Q.

(** The integer nearest to [x], the even one of two that are equally near. *)
Definition rne (x : Q) : Z :=
  let fl := Qfloor x in
  match (x - inject_Z fl ?= 1 # 2)%Q with
  | Lt => fl
  | Gt => fl + 1
  | Eq => if Z.even fl then fl else fl + 1
  end.

(** For [0 < x], the exponent [e] with [2 ^ e <= x < 2 ^ (e + 1)]. *)
Definition ilog2 (x : Q) : Z :=
  let e0 := Z.log2 (Qnum x) - Z.log2 (Zpos (Qden x)) in
  if Qle_bool (pow2 e0) x then e0 else e0 - 1.

(** Rounding on the grid of the multiples of [pow2 s]. *)
Definition on_grid (s : Z) (x : Q) : Q :=
  (inject_Z (rne (x * pow2 (- s))) * pow2 s)%Q.

(** The exponent of the spacing of the doubles around [x]: 53 significant
    bits, and no spacing finer than [2 ^ -1074]. *)
Definition ulp_exp (x : Q) : Z := Z.max (ilog2 x - 52) (-1074).

(** The double nearest to a positive [x]. *)
Definition round_pos (x : Q) : Q := on_grid (ulp_exp x) x.

(** The double nearest to [x]. *)
Definition round64 (x : Q) : Q :=
  match (x ?= 0)%Q with
  | Gt => round_pos x
  | Lt => (- round_pos (- x))%Q
  | Eq => 0%Q
  end.

Lemma pow2_pos (e : Z) : (0 < pow2 e)%Q.
Proof. apply Qpower_0_lt. reflexivity. Qed.

Lemma pow2_add (a b : Z) : (pow2 (a + b) == pow2 a * pow2 b)%Q.
Proof. apply Qpower_plus. discriminate. Qed.

Lemma pow2_le (a b : Z) : a <= b -> (pow2 a <= pow2 b)%Q.
Proof. intros H. apply Qpower_le_compat_l; [assumption | discriminate]. Qed.

Lemma pow2_lt (a b : Z) : a < b -> (pow2 a < pow2 b)%Q.
Proof. intros H. apply Qpower_lt_compat_l; [assumption | reflexivity]. Qed.

Lemma pow2_Z (e : Z) : 0 <= e -> (pow2 e == inject_Z (2 ^ e))%Q.
Proof. intros H. unfold pow2. now rewrite Zpower_Qpower. Qed.

Lemma pow2_cancel (e : Z) : (pow2 (- e) * pow2 e == 1)%Q.
Proof. rewrite <- pow2_add. now replace (- e + e) with 0 by lia. Qed.

Lemma rne_bounds (x : Q) : Qfloor x <= rne x <= Qfloor x + 1.
Proof.
  unfold rne; cbv zeta.
  destruct (_ ?= _)%Q; [destruct (Z.even _)| |]; lia.
Qed.

Lemma rne_Z (z : Z) : rne (inject_Z z) = z.
Proof.
  unfold rne; cbv zeta. rewrite Qfloor_Z.
  assert (E : (inject_Z z - inject_Z z ?= 1 # 2)%Q = Lt).
  { apply Qlt_alt. unfold Qminus. now rewrite Qplus_opp_r. }
  now rewrite E.
Qed.

Lemma rne_monotone (x y : Q) : (x <= y)%Q -> rne x <= rne y.
Proof.
  intros H. pose proof (Qfloor_resp_le _ _ H) as Hfl.
  pose proof (rne_bounds x) as Bx. pose proof (rne_bounds y) as By.
  destruct (Z.eq_dec (Qfloor x) (Qfloor y)) as [E|NE]; [|lia].
  unfold rne; cbv zeta. rewrite <- E.
  generalize (inject_Z (Qfloor x)). intros k.
  destruct (Qcompare_spec (x - k) (1 # 2)) as [Cx|Cx|Cx];
    destruct (Qcompare_spec (y - k) (1 # 2)) as [Cy|Cy|Cy];
    try destruct (Z.even (Qfloor x)); try lia; exfalso; lra.
Qed.

Lemma Qmake_mult_den (n : Z) (d : positive) :
  ((n # d) * inject_Z (Zpos d) == inject_Z n)%Q.
Proof. unfold Qeq, Qmult, inject_Z; cbn. lia. Qed.

Lemma log2_Q (a : Z) :
  0 < a ->
  (pow2 (Z.log2 a) <= inject_Z a)%Q /\ (inject_Z a < pow2 (Z.log2 a + 1))%Q.
Proof.
  intros Ha. pose proof (Z.log2_nonneg a) as Hn.
  destruct (Z.log2_spec a Ha) as [Hlo Hhi].
  rewrite !pow2_Z by lia. split.
  - now rewrite <- Zle_Qle.
  - rewrite <- Zlt_Qlt. now rewrite <- Z.add_1_r in Hhi.
Qed.

Lemma ilog2_spec (x : Q) :
  (0 < x)%Q ->
  (pow2 (ilog2 x) <= x)%Q /\ (x < pow2 (ilog2 x + 1))%Q.
Proof.
  intros Hx. destruct x as [n d].
  assert (Hn : 0 < n) by (unfold Qlt in Hx; cbn in Hx; lia).
  unfold ilog2; cbn [Qnum Qden].
  set (ln := Z.log2 n). set (ld := Z.log2 (Z.pos d)).
  destruct (log2_Q n Hn) as [Hn1 Hn2]. fold ln in Hn1, Hn2.
  destruct (log2_Q (Z.pos d) eq_refl) as [Hd1 Hd2]. fold ld in Hd1, Hd2.
  pose proof (Qmake_mult_den n d) as HND.
  set (x := (n # d)%Q) in *.
  set (N := inject_Z n) in *. set (D := inject_Z (Z.pos d)) in *.
  assert (HD : (0 < D)%Q) by (apply Qlt_le_trans with (pow2 ld);
                              [apply pow2_pos | assumption]).
  assert (Hup : (x < pow2 (ln - ld + 1))%Q).
  { apply Qmult_lt_r with D; [assumption|]. rewrite HND.
    apply Qlt_le_trans with (1 := Hn2).
    replace (ln + 1) with ((ln - ld + 1) + ld) by lia.
    rewrite pow2_add. apply Qmult_le_l; [apply pow2_pos | assumption]. }
  assert (Hlow : (pow2 (ln - ld - 1) <= x)%Q).
  { apply Qmult_le_r with D; [assumption|]. rewrite HND.
    apply Qle_trans with (2 := Hn1).
    replace ln with ((ln - ld - 1) + (ld + 1)) at 2 by lia.
    rewrite pow2_add. apply Qmult_le_l; [apply pow2_pos|].
    now apply Qlt_le_weak. }
  destruct (Qle_bool (pow2 (ln - ld)) x) eqn:E.
  - apply Qle_bool_iff in E. split; assumption.
  - split; [assumption|].
    replace (ln - ld - 1 + 1) with (ln - ld) by lia.
    destruct (Qlt_le_dec x (pow2 (ln - ld))) as [H|H]; [assumption|].
    apply Qle_bool_iff in H. congruence.
Qed.

Lemma ilog2_unique (x : Q) (e : Z) :
  (0 < x)%Q -> (pow2 e <= x)%Q -> (x < pow2 (e + 1))%Q -> ilog2 x = e.
Proof.
  intros Hx Hlo Hhi. destruct (ilog2_spec x Hx) as [Hlo' Hhi'].
  destruct (Z.lt_trichotomy (ilog2 x) e) as [H|[H|H]]; [|assumption|].
  - exfalso. pose proof (pow2_le (ilog2 x + 1) e ltac:(lia)). lra.
  - exfalso. pose proof (pow2_le (e + 1) (ilog2 x) ltac:(lia)). lra.
Qed.

Lemma ilog2_monotone (x y : Q) :
  (0 < x)%Q -> (x <= y)%Q -> ilog2 x <= ilog2 y.
Proof.
  intros Hx Hxy.
  destruct (ilog2_spec x Hx) as [Hlo Hhi].
  destruct (ilog2_spec y) as [Hlo' Hhi']; [lra|].
  destruct (Z.le_gt_cases (ilog2 x) (ilog2 y)) as [H|H]; [assumption|].
  exfalso. pose proof (pow2_le (ilog2 y + 1) (ilog2 x) ltac:(lia)). lra.
Qed.

Lemma rne_eq_Z (q : Q) (k : Z) : (q == inject_Z k)%Q -> rne q = k.
Proof.
  intros H. apply Z.le_antisymm.
  - rewrite <- (rne_Z k). apply rne_monotone. rewrite H. apply Qle_refl.
  - rewrite <- (rne_Z k) at 1. apply rne_monotone. rewrite H. apply Qle_refl.
Qed.

Lemma on_grid_monotone (s : Z) (x y : Q) :
  (x <= y)%Q -> (on_grid s x <= on_grid s y)%Q.
Proof.
  intros H. unfold on_grid.
  apply Qmult_le_compat_r; [|apply Qlt_le_weak, pow2_pos].
  rewrite <- Zle_Qle. apply rne_monotone.
  apply Qmult_le_compat_r; [assumption | apply Qlt_le_weak, pow2_pos].
Qed.

Lemma on_grid_point (s k : Z) :
  (on_grid s (inject_Z k * pow2 s) == inject_Z k * pow2 s)%Q.
Proof.
  unfold on_grid. rewrite (rne_eq_Z _ k); [reflexivity|].
  rewrite <- Qmult_assoc, (Qmult_comm (pow2 s)), pow2_cancel.
  apply Qmult_1_r.
Qed.

Lemma on_grid_coarser (s t k : Z) :
  s <= t ->
  (on_grid s (inject_Z k * pow2 t) == inject_Z k * pow2 t)%Q.
Proof.
  intros H.
  assert (E : (inject_Z k * pow2 t == inject_Z (k * 2 ^ (t - s)) * pow2 s)%Q).
  { rewrite inject_Z_mult, <- pow2_Z by lia.
    rewrite <- Qmult_assoc, <- pow2_add.
    now replace (t - s + s) with t by lia. }
  unfold on_grid at 1. rewrite (rne_eq_Z _ (k * 2 ^ (t - s))).
  - symmetry. exact E.
  - rewrite E, <- Qmult_assoc, (Qmult_comm (pow2 s)), pow2_cancel.
    apply Qmult_1_r.
Qed.

Lemma round_pos_on_grid (x : Q) : round_pos x = on_grid (ulp_exp x) x.
Proof. reflexivity. Qed.

Lemma pow2_as_grid_point (s e : Z) :
  s <= e -> (pow2 e == inject_Z (2 ^ (e - s)) * pow2 s)%Q.
Proof.
  intros H. rewrite <- pow2_Z by lia. rewrite <- pow2_add.
  now replace (e - s + s) with e by lia.
Qed.

Lemma round_pos_monotone (x y : Q) :
  (0 < x)%Q -> (x <= y)%Q -> (round_pos x <= round_pos y)%Q.
Proof.
  intros Hx Hxy. assert (Hy : (0 < y)%Q) by lra.
  rewrite !round_pos_on_grid.
  pose proof (ilog2_monotone x y Hx Hxy) as He.
  destruct (ilog2_spec x Hx) as [_ Hxhi].
  destruct (ilog2_spec y Hy) as [Hylo _].
  unfold ulp_exp.
  destruct (Z.eq_dec (Z.max (ilog2 x - 52) (-1074))
                     (Z.max (ilog2 y - 52) (-1074))) as [E|NE].
  - rewrite E. now apply on_grid_monotone.
  - set (sx := Z.max (ilog2 x - 52) (-1074)) in *.
    set (sy := Z.max (ilog2 y - 52) (-1074)) in *.
    assert (Hs : sx < sy /\ sy = ilog2 y - 52 /\ ilog2 x + 1 <= ilog2 y)
      by lia.
    destruct Hs as (Hlt & Hsy & Hex).
    pose proof (pow2_le (ilog2 x + 1) (ilog2 y) Hex) as Hp.
    apply Qle_trans with (pow2 (ilog2 y)).
    + rewrite (pow2_as_grid_point sx (ilog2 y)) by lia.
      rewrite <- (on_grid_point sx (2 ^ (ilog2 y - sx))).
      apply on_grid_monotone.
      rewrite <- (pow2_as_grid_point sx (ilog2 y)) by lia. lra.
    + rewrite (pow2_as_grid_point sy (ilog2 y)) at 1 by lia.
      rewrite <- (on_grid_point sy (2 ^ (ilog2 y - sy))).
      apply on_grid_monotone.
      rewrite <- (pow2_as_grid_point sy (ilog2 y)) by lia. exact Hylo.
Qed.

Lemma on_grid_nonneg (s : Z) (x : Q) : (0 <= x)%Q -> (0 <= on_grid s x)%Q.
Proof.
  intros H. unfold on_grid. apply Qmult_le_0_compat.
  - change 0%Q with (inject_Z 0). rewrite <- Zle_Qle.
    rewrite <- (rne_Z 0). apply rne_monotone.
    change (inject_Z 0) with 0%Q.
    apply Qmult_le_0_compat; [assumption | apply Qlt_le_weak, pow2_pos].
  - apply Qlt_le_weak, pow2_pos.
Qed.

Lemma round_pos_nonneg (x : Q) : (0 <= x)%Q -> (0 <= round_pos x)%Q.
Proof. intros H. rewrite round_pos_on_grid. now apply on_grid_nonneg. Qed.

Lemma round64_monotone (x y : Q) :
  (x <= y)%Q -> (round64 x <= round64 y)%Q.
Proof.
  intros H. unfold round64.
  destruct (Qcompare_spec x 0) as [Cx|Cx|Cx];
    destruct (Qcompare_spec y 0) as [Cy|Cy|Cy];
    try (exfalso; lra); try apply Qle_refl.
  - apply round_pos_nonneg. lra.
  - assert (0 <= round_pos (- x))%Q by (apply round_pos_nonneg; lra). lra.
  - assert (round_pos (- y) <= round_pos (- x))%Q
      by (apply round_pos_monotone; lra). lra.
  - assert (0 <= round_pos (- x))%Q by (apply round_pos_nonneg; lra).
    assert (0 <= round_pos y)%Q by (apply round_pos_nonneg; lra). lra.
  - now apply round_pos_monotone.
Qed.

Lemma round64_proper (x y : Q) : (x == y)%Q -> (round64 x == round64 y)%Q.
Proof.
  intros H. apply Qle_antisym; apply round64_monotone; rewrite H;
    apply Qle_refl.
Qed.

Lemma on_grid_proper (s : Z) (x y : Q) :
  (x == y)%Q -> (on_grid s x == on_grid s y)%Q.
Proof.
  intros H. apply Qle_antisym; apply on_grid_monotone; rewrite H;
    apply Qle_refl.
Qed.

Lemma ulp_exp_min (x : Q) : -1074 <= ulp_exp x /\ ilog2 x - 52 <= ulp_exp x.
Proof. unfold ulp_exp. lia. Qed.

Lemma round_pos_fixed (x : Q) :
  (0 < x)%Q -> (0 < round_pos x)%Q ->
  (round_pos (round_pos x) == round_pos x)%Q.
Proof.
  intros Hx Hv.
  destruct (ilog2_spec x Hx) as [_ Hxhi].
  destruct (ulp_exp_min x) as [Hmin Hs].
  rewrite (round_pos_on_grid x) in *.
  set (s := ulp_exp x) in *. unfold on_grid in Hv |- *.
  set (r := rne (x * pow2 (- s))) in *.
  set (v := (inject_Z r * pow2 s)%Q) in *.
  assert (Hr53 : r <= 2 ^ 53).
  { unfold r. rewrite <- (rne_Z (2 ^ 53)). apply rne_monotone.
    rewrite <- pow2_Z by lia.
    apply Qle_trans with (pow2 (ilog2 x + 1) * pow2 (- s))%Q.
    - apply Qmult_le_compat_r; [lra | apply Qlt_le_weak, pow2_pos].
    - rewrite <- pow2_add. apply pow2_le. lia. }
  assert (Hr0 : 0 < r).
  { destruct (Z.lt_ge_cases 0 r) as [H|H]; [assumption|]. exfalso.
    assert (inject_Z r <= 0)%Q
      by (change 0%Q with (inject_Z 0); now rewrite <- Zle_Qle).
    pose proof (pow2_pos s). unfold v in Hv. nra. }
  rewrite round_pos_on_grid.
  destruct (Z.eq_dec r (2 ^ 53)) as [E|NE].
  - assert (Ev : (v == pow2 (s + 53))%Q).
    { unfold v. rewrite E, <- pow2_Z by lia. rewrite <- pow2_add.
      now replace (53 + s) with (s + 53) by lia. }
    assert (El : ilog2 v = s + 53).
    { apply ilog2_unique; [assumption | rewrite Ev; apply Qle_refl|].
      rewrite Ev. apply pow2_lt. lia. }
    unfold ulp_exp. rewrite El.
    replace (Z.max (s + 53 - 52) (-1074)) with (s + 1) by lia.
    assert (Eg : (v == inject_Z (2 ^ 52) * pow2 (s + 1))%Q).
    { rewrite Ev, (pow2_as_grid_point (s + 1) (s + 53)) by lia.
      now replace (s + 53 - (s + 1)) with 52 by lia. }
    rewrite (on_grid_proper _ _ _ Eg), on_grid_point.
    symmetry. exact Eg.
  - assert (Hlt : (v < pow2 (s + 53))%Q).
    { unfold v. replace (s + 53) with (53 + s) by lia.
      rewrite pow2_add. rewrite (pow2_Z 53) by lia.
      apply Qmult_lt_compat_r; [apply pow2_pos|].
      rewrite <- Zlt_Qlt. lia. }
    destruct (ilog2_spec v Hv) as [Hvlo _].
    assert (Hl : ilog2 v < s + 53).
    { apply (Qpower_lt_compat_l_inv 2); [|reflexivity].
      fold (pow2 (ilog2 v)) (pow2 (s + 53)). lra. }
    unfold v at 2 3. apply on_grid_coarser. unfold ulp_exp. lia.
Qed.

Lemma round64_zero : (round64 0 == 0)%Q.
Proof. reflexivity. Qed.

Lemma round64_neg (x : Q) : (x < 0)%Q -> round64 x = (- round_pos (- x))%Q.
Proof.
  intros H. unfold round64.
  destruct (Qcompare_spec x 0) as [C|C|C]; [exfalso; lra | reflexivity
                                            | exfalso; lra].
Qed.

Lemma round64_posv (x : Q) : (0 < x)%Q -> round64 x = round_pos x.
Proof.
  intros H. unfold round64.
  destruct (Qcompare_spec x 0) as [C|C|C]; [exfalso; lra | exfalso; lra
                                            | reflexivity].
Qed.

Lemma round64_idempotent (x : Q) : (round64 (round64 x) == round64 x)%Q.
Proof.
  destruct (Qcompare_spec x 0) as [Cx|Cx|Cx].
  - assert (E : (round64 x == 0)%Q)
      by (rewrite (round64_proper _ _ Cx); apply round64_zero).
    rewrite (round64_proper _ _ E), round64_zero. symmetry. exact E.
  - rewrite (round64_neg x Cx).
    assert (H0 : (0 <= round_pos (- x))%Q) by (apply round_pos_nonneg; lra).
    destruct (Qlt_le_dec 0 (round_pos (- x))) as [Hv|Hv].
    + rewrite round64_neg by lra. apply Qopp_comp.
      rewrite <- (round_pos_fixed (- x)) at 2 by lra.
      apply Qle_antisym; apply round_pos_monotone; lra.
    + rewrite (round64_proper _ 0) by lra. rewrite round64_zero. lra.
  - rewrite (round64_posv x Cx).
    assert (H0 : (0 <= round_pos x)%Q) by (apply round_pos_nonneg; lra).
    destruct (Qlt_le_dec 0 (round_pos x)) as [Hv|Hv].
    + rewrite round64_posv by assumption. apply round_pos_fixed; assumption.
    + rewrite (round64_proper _ 0) by lra. rewrite round64_zero. lra.
Qed.

End Binary64.

(** Python's floats.  A float is named by any rational that rounds to it,
    and [toQ] gives the double itself; the difference of two floats is then
    the double nearest to the exact difference of the two doubles. *)
Definition binary64 : Format :=
  {| float := Q;
     toQ := Binary64.round64;
     nearest := fun q => q;
     fzero := 0%Q;
     nearest_monotone := Binary64.round64_monotone;
     nearest_exact := Binary64.round64_idempotent;
     fzero_exact := Binary64.round64_zero |}.

(** ** The state word and its bit masks *)

Definition DEBOUNCED_STATE : Z := 0x01.
Definition UNSTABLE_STATE : Z := 0x02.
Definition CHANGED_STATE : Z := 0x04.

(** The attributes of an instance.  [self.f] is not a field here: it is the
    sampling oracle of the section below. *)
Record Debouncer (fmt : Format) : Type := mkDebouncer {
  state : Z;
  previous_time : float fmt;
  interval : float fmt
}.

Arguments mkDebouncer {fmt} _ _ _.
Arguments state {fmt} _.
Arguments previous_time {fmt} _.
Arguments interval {fmt} _.

(** ** The surroundings: clock and sampled input *)

Record World : Type := mkWorld {
  ticks : nat;   (* calls of time.monotonic() made so far *)
  polls : nat    (* calls of self.f() made so far *)
}.

Definition M (A : Type) : Type := World -> A * World.

Definition ret {A : Type} (a : A) : M A := fun w => (a, w).

Definition bind {A B : Type} (m : M A) (k : A -> M B) : M B :=
  fun w => let (a, w') := m w in k a w'.

Declare Scope debouncer_scope.
Notation "x <- m ;; k" := (bind m (fun x => k))
  (at level 61, m at next level, right associativity) : debouncer_scope.
Local Open Scope debouncer_scope.

(** The world in which nothing was read yet. *)
Definition boot : World := {| ticks := 0; polls := 0 |}.

Section WithFormat.

Variable fmt : Format.

Definition with_state (self : Debouncer fmt) (s : Z) : Debouncer fmt :=
  {| state := s; previous_time := previous_time self; interval := interval self |}.

Definition with_previous_time (self : Debouncer fmt) (t : float fmt)
    : Debouncer fmt :=
  {| state := state self; previous_time := t; interval := interval self |}.

(** [self.state |= bits] *)
Definition __set_state (self : Debouncer fmt) (bits : Z) : Debouncer fmt :=
  with_state self (Z.lor (state self) bits).

(** [self.state &= ~bits] *)
Definition __unset_state (self : Debouncer fmt) (bits : Z) : Debouncer fmt :=
  with_state self (Z.land (state self) (Z.lnot bits)).

(** [self.state ^= bits] *)
Definition __toggle_state (self : Debouncer fmt) (bits : Z) : Debouncer fmt :=
  with_state self (Z.lxor (state self) bits).

(** [return (self.state & bits) != 0] *)
Definition __get_state (self : Debouncer fmt) (bits : Z) : bool :=
  negb (Z.land (state self) bits =? 0).

(** The three flags as the class reads them. *)
Definition debounced_state (self : Debouncer fmt) : bool :=
  __get_state self DEBOUNCED_STATE.
Definition unstable_state (self : Debouncer fmt) : bool :=
  __get_state self UNSTABLE_STATE.
Definition changed_state (self : Debouncer fmt) : bool :=
  __get_state self CHANGED_STATE.

(** ** The properties *)

Definition value (self : Debouncer fmt) : bool :=
  __get_state self DEBOUNCED_STATE.

Definition rose (self : Debouncer fmt) : bool :=
  __get_state self DEBOUNCED_STATE && __get_state self CHANGED_STATE.

Definition fell (self : Debouncer fmt) : bool :=
  negb (__get_state self DEBOUNCED_STATE) && __get_state self CHANGED_STATE.

(** The interval used when the argument is omitted or [None]: the float
    that the literal [0.010] denotes. *)
Definition default_interval : float fmt := nearest (1 # 100)%Q.

Section Surroundings.

(** [monotonic k] is what the k-th call of [time.monotonic()] returns and
    [f k] what the k-th call of [self.f()] returns. *)
Variable monotonic : nat -> float fmt.
Variable f : nat -> bool.

Definition time_monotonic : M (float fmt) :=
  fun w => (monotonic (ticks w), {| ticks := S (ticks w); polls := polls w |}).

Definition call_f : M bool :=
  fun w => (f (polls w), {| ticks := ticks w; polls := S (polls w) |}).

(** [__init__].  Both branches of the [isinstance] test leave in [self.f]
    a callable without arguments (for a pin number, one that reads the
    pin's [value]); that callable is the oracle [f], and [mode] only
    configures the pin.  [interval] is [None] or a number.  A record has
    all its fields from the start, so [previous_time] and [interval] hold 0
    until the statements that assign them. *)
Definition __init__ (interval : option (float fmt)) : M (Debouncer fmt) :=
  let self := {| state := 0x00; previous_time := fzero; interval := fzero |} in
  sample <- call_f ;;
  let self :=
    if sample : bool
    then __set_state self (Z.lor DEBOUNCED_STATE UNSTABLE_STATE)
    else self in
  let self := with_previous_time self fzero in
  ret {| state := state self;
         previous_time := previous_time self;
         interval := match interval with
                     | None => default_interval
                     | Some i => i
                     end |}.

(** [update] *)
Definition update (self : Debouncer fmt) : M (Debouncer fmt) :=
  now <- time_monotonic ;;
  let self := __unset_state self CHANGED_STATE in
  current_state <- call_f ;;
  if negb (Bool.eqb current_state (__get_state self UNSTABLE_STATE)) then
    let self := with_previous_time self now in
    ret (__toggle_state self UNSTABLE_STATE)
  else
    if fge (fsub now (previous_time self)) (interval self) then
      if negb (Bool.eqb current_state (__get_state self DEBOUNCED_STATE)) then
        let self := with_previous_time self now in
        let self := __toggle_state self DEBOUNCED_STATE in
        ret (__set_state self CHANGED_STATE)
      else ret self
    else ret self.

(** The polling loop of a caller: [n] calls of [update] in a row. *)
Fixpoint updates (n : nat) (self : Debouncer fmt) : M (Debouncer fmt) :=
  match n with
  | O => ret self
  | S n' => self' <- update self ;; updates n' self'
  end.

(** An execution: construction followed by [n] calls of [update]. *)
Definition run (interval : option (float fmt)) (n : nat) : M (Debouncer fmt) :=
  self <- __init__ interval ;; updates n self.

End Surroundings.

(** ** Vocabulary of the statements *)

(** Whether a call of [update] in state [self] that reads the clock [now]
    and the sample [current_state] reaches the innermost branch, the one
    that toggles [DEBOUNCED_STATE]. *)
Definition accepts (self : Debouncer fmt) (now : float fmt)
    (current_state : bool) : bool :=
  (Bool.eqb current_state (unstable_state self)
   && fge (fsub now (previous_time self)) (interval self)
   && negb (Bool.eqb current_state (debounced_state self)))%bool.

(** The contract of [time.monotonic()]: readings never decrease. *)
Definition monotone_clock (monotonic : nat -> float fmt) : Prop :=
  forall i j : nat, (i <= j)%nat -> (toQ (monotonic i) <= toQ (monotonic j))%Q.

(** The interval an instance ends up with for a given constructor argument. *)
Definition interval_of (arg : option (float fmt)) : float fmt :=
  match arg with
  | None => default_interval
  | Some i => i
  end.

(** Among the samples [f 0 .. f k], the index of the last one that differs
    from its predecessor, if there is one. *)
Fixpoint last_change (f : nat -> bool) (k : nat) : option nat :=
  match k with
  | O => None
  | S k' => if xorb (f (S k')) (f k') then Some (S k') else last_change f k'
  end.

(** The instance after [k] calls of [update] that start in state [self]
    and world [w]. *)
Definition after (monotonic : nat -> float fmt) (f : nat -> bool)
    (self : Debouncer fmt) (w : World) (k : nat) : Debouncer fmt :=
  fst (updates monotonic f k self w).

(** Calls of [update] that start in world [w] are numbered from 0; the call
    numbered [i] reads the clock [monotonic (ticks w + i)] and the sample
    [f (polls w + i)].  [elapsed] is the exact difference between the
    readings of call [i] and call 0. *)
Definition elapsed (monotonic : nat -> float fmt) (w : World) (i : nat) : Q :=
  (toQ (monotonic (ticks w + i)%nat) - toQ (monotonic (ticks w)))%Q.

(** [measured] is that difference as the class computes it: the float
    [monotonic (ticks w + i) - monotonic (ticks w)]. *)
Definition measured (monotonic : nat -> float fmt) (w : World) (i : nat) : Q :=
  toQ (fsub (monotonic (ticks w + i)%nat) (monotonic (ticks w))).

(** Among the calls numbered [0 .. i], the number of the last one whose
    sample differs from the sample before it, if there is one; the sample
    before call 0 is [before]. *)
Fixpoint last_change_from (before : bool) (g : nat -> bool) (i : nat)
    : option nat :=
  match i with
  | O => if xorb (g O) before then Some O else None
  | S i' =>
      if xorb (g (S i')) (g i') then Some (S i')
      else last_change_from before g i'
  end.

(** The input bounces during [n] calls of [update] that start in state
    [self] and world [w].  At every call, the latest raw change (counted
    from the sample the instance saw last, [unstable_state self]) is seen by
    this very call, or the float difference between the reading of this call
    and the reading of the call that saw it is below the interval; and as
    long as no change was seen at all, the instance is at rest. *)
Definition bouncing_from (monotonic : nat -> float fmt) (f : nat -> bool)
    (self : Debouncer fmt) (w : World) (n : nat) : Prop :=
  forall i : nat, (i < n)%nat ->
    match last_change_from (unstable_state self)
            (fun k => f (polls w + k)%nat) i with
    | None => debounced_state self = unstable_state self
    | Some j =>
        j = i
        \/ (toQ (fsub (monotonic (ticks w + i)%nat) (monotonic (ticks w + j)%nat))
            < toQ (interval self))%Q
    end.

(** The raw input has changed once and holds: the instance is at rest on
    [b] and the next [n] samples are all [negb b]. *)
Definition changed_once (f : nat -> bool) (self : Debouncer fmt) (w : World)
    (b : bool) (n : nat) : Prop :=
  unstable_state self = b
  /\ debounced_state self = b
  /\ forall i : nat, (i < n)%nat -> f (polls w + i)%nat = negb b.

(** Settle acceptance as stated, the part about the flip, with every call
    counted (the call that sees the change included) and the elapsed time
    exact: the first call at which the elapsed time reaches the interval
    flips the debounced value and reports the edge. *)
Definition settle_acceptance_every_call : Prop :=
  forall (monotonic : nat -> float fmt) (f : nat -> bool)
         (self : Debouncer fmt) (w : World) (b : bool) (n : nat),
    monotone_clock monotonic ->
    changed_once f self w b n ->
    forall i : nat, (i < n)%nat ->
      (toQ (interval self) <= elapsed monotonic w i)%Q ->
      (forall j : nat, (j < i)%nat ->
         (elapsed monotonic w j < toQ (interval self))%Q) ->
      value (after monotonic f self w (S i)) = negb b
      /\ rose (after monotonic f self w (S i)) = negb b
      /\ fell (after monotonic f self w (S i)) = b.

(** Settle acceptance as stated, the part about waiting, with the elapsed
    time exact: a call after the one that saw the change, made while the
    elapsed time is below the interval, leaves the debounced value as it
    was. *)
Definition settle_acceptance_exact_time : Prop :=
  forall (monotonic : nat -> float fmt) (f : nat -> bool)
         (self : Debouncer fmt) (w : World) (b : bool) (n : nat),
    monotone_clock monotonic ->
    changed_once f self w b n ->
    forall i : nat, (1 <= i < n)%nat ->
      (elapsed monotonic w i < toQ (interval self))%Q ->
      value (after monotonic f self w (S i)) = b.

(** ** Concrete surroundings used in the examples

    The readings of the three clocks are multiples of a power of two,
    which are doubles and whose differences are doubles. *)

(** A clock that advances by 1/1024 s (a little under a millisecond) per
    reading. *)
Definition fine_clock (k : nat) : float binary64 :=
  (inject_Z (Z.of_nat k) * (1 # 1024))%Q.

(** A clock that advances by 1/128 s (7.8125 ms) per reading. *)
Definition coarse_clock (k : nat) : float binary64 :=
  (inject_Z (Z.of_nat k) * (1 # 128))%Q.

(** A clock that advances by 1/64 s (15.625 ms) per reading. *)
Definition slow_clock (k : nat) : float binary64 :=
  (inject_Z (Z.of_nat k) * (1 # 64))%Q.

(** A clock that reads 2^-60 s at its first reading and 1 s from then on. *)
Definition late_clock (k : nat) : float binary64 :=
  if (k =? 0)%nat then (1 # 2 ^ 60)%Q else 1%Q.

(** An input that is high at every sample. *)
Definition always_high (k : nat) : bool := true.

(** An input that is low at every sample. *)
Definition always_low (k : nat) : bool := false.

(** An input that is low at construction and high from then on. *)
Definition low_then_high (k : nat) : bool := negb (k =? 0)%nat.

(** An input that flips at every sample, starting low. *)
Definition alternating (k : nat) : bool := Nat.odd k.

(** An input that changes at every second sample: low, low, high, high,
    low, low, ... *)
Definition chattering (k : nat) : bool := Nat.odd (k / 2).

(** An input that is low at construction, goes high, drops once more and
    then stays high. *)
Definition one_bounce (k : nat) : bool :=
  match k with
  | 0%nat | 2%nat => false
  | _ => true
  end.

(** An input that is low at construction, high for the next twelve samples,
    and then bounces in pairs: low, low, high, high, low, low, ... *)
Definition settle_then_chatter (k : nat) : bool :=
  if (k =? 0)%nat then false
  else if (k <=? 12)%nat then true
  else Nat.odd ((k - 13) / 2).

(** An input that is low at construction, high for the next four samples
    and low from then on. *)
Definition pulse (k : nat) : bool := ((1 <=? k)%nat && (k <=? 4)%nat)%bool.

(** The float that the literal [0.010] denotes. *)
Definition ten_ms : float binary64 := (1 # 100)%Q.

(** An instance at rest on low. *)
Definition at_rest_low (i : Q) : Debouncer binary64 :=
  @mkDebouncer binary64 0x00 0%Q i.

(** An instance whose input went high one call ago and whose debounced value
    is still low. *)
Definition pending_high (i : Q) : Debouncer binary64 :=
  @mkDebouncer binary64 UNSTABLE_STATE 0%Q i.

(** ** Vocabulary of the further properties *)

(** Two instances that differ at most in a [previous_time] that no test of
    [update] can make use of: the state words and intervals agree, and so do
    the timestamps whenever a change is pending. *)
Definition same_but_idle_timer (s1 s2 : Debouncer fmt) : Prop :=
  state s1 = state s2
  /\ interval s1 = interval s2
  /\ (unstable_state s1 <> debounced_state s1 ->
      previous_time s1 = previous_time s2).

(** ** Bit-level facts about the state word *)

Section Bits.

Local Open Scope bool_scope.

Lemma land_pow2 (s k : Z) :
  0 <= k -> Z.land s (2 ^ k) = if Z.testbit s k then 2 ^ k else 0.
Proof.
  intros Hk. apply Z.bits_inj'. intros n Hn.
  rewrite Z.land_spec, Z.pow2_bits_eqb by assumption.
  destruct (Z.eqb_spec k n) as [->|Hne].
  - destruct (Z.testbit s n); simpl.
    + now rewrite Z.pow2_bits_eqb, Z.eqb_refl.
    + now rewrite Z.bits_0.
  - rewrite andb_false_r.
    destruct (Z.testbit s k).
    + rewrite Z.pow2_bits_eqb by assumption.
      symmetry. now apply Z.eqb_neq.
    + now rewrite Z.bits_0.
Qed.

Lemma get_state_testbit (self : Debouncer fmt) (k : Z) :
  0 <= k -> __get_state self (2 ^ k) = Z.testbit (state self) k.
Proof.
  intros Hk. unfold __get_state. rewrite land_pow2 by assumption.
  destruct (Z.testbit (state self) k); [|reflexivity].
  assert (0 < 2 ^ k) by (apply Z.pow_pos_nonneg; lia).
  destruct (Z.eqb_spec (2 ^ k) 0); [lia | reflexivity].
Qed.

Lemma get_set (self : Debouncer fmt) (j k : Z) :
  0 <= j -> 0 <= k ->
  __get_state (__set_state self (2 ^ k)) (2 ^ j) =
  __get_state self (2 ^ j) || (k =? j).
Proof.
  intros Hj Hk. rewrite !get_state_testbit by assumption. simpl.
  now rewrite Z.lor_spec, Z.pow2_bits_eqb.
Qed.

Lemma get_unset (self : Debouncer fmt) (j k : Z) :
  0 <= j -> 0 <= k ->
  __get_state (__unset_state self (2 ^ k)) (2 ^ j) =
  __get_state self (2 ^ j) && negb (k =? j).
Proof.
  intros Hj Hk. rewrite !get_state_testbit by assumption. simpl.
  now rewrite Z.land_spec, Z.lnot_spec, Z.pow2_bits_eqb.
Qed.

Lemma get_toggle (self : Debouncer fmt) (j k : Z) :
  0 <= j -> 0 <= k ->
  __get_state (__toggle_state self (2 ^ k)) (2 ^ j) =
  xorb (__get_state self (2 ^ j)) (k =? j).
Proof.
  intros Hj Hk. rewrite !get_state_testbit by assumption. simpl.
  now rewrite Z.lxor_spec, Z.pow2_bits_eqb.
Qed.

Lemma get_with_previous_time (self : Debouncer fmt) (t : float fmt) (bits : Z) :
  __get_state (with_previous_time self t) bits = __get_state self bits.
Proof. reflexivity. Qed.

End Bits.

(** Rewrites every flag read through a chain of flag writes into the flags
    of the state the chain started from. *)
Ltac flags :=
  unfold debounced_state, unstable_state, changed_state, value, rose, fell;
  replace DEBOUNCED_STATE with (2 ^ 0) by reflexivity;
  replace UNSTABLE_STATE with (2 ^ 1) by reflexivity;
  replace CHANGED_STATE with (2 ^ 2) by reflexivity;
  repeat first
    [ rewrite get_with_previous_time
    | rewrite get_set by lia
    | rewrite get_unset by lia
    | rewrite get_toggle by lia ];
  cbn [Z.eqb negb Pos.eqb].

(** ** One call of [update], flag by flag *)

Section UpdateFacts.

Variable monotonic : nat -> float fmt.
Variable f : nat -> bool.

Local Open Scope bool_scope.

Lemma update_world (self : Debouncer fmt) (w : World) :
  snd (update monotonic f self w) =
  {| ticks := S (ticks w); polls := S (polls w) |}.
Proof.
  unfold update, bind, time_monotonic, call_f, ret; simpl.
  repeat match goal with |- context [if ?c then _ else _] => destruct c end;
    reflexivity.
Qed.

Lemma update_flags (self : Debouncer fmt) (w : World) :
  let now := monotonic (ticks w) in
  let current_state := f (polls w) in
  let self' := fst (update monotonic f self w) in
  unstable_state self' = current_state
  /\ debounced_state self' =
     (if accepts self now current_state then current_state
      else debounced_state self)
  /\ changed_state self' = accepts self now current_state
  /\ previous_time self' =
     (if negb (Bool.eqb current_state (unstable_state self))
         || accepts self now current_state
      then now else previous_time self)
  /\ interval self' = interval self.
Proof.
  intros now current_state self'. subst self'.
  unfold update, bind, time_monotonic, call_f, ret, accepts.
  cbn [fst snd ticks polls].
  fold now current_state.
  change (interval (__unset_state self CHANGED_STATE)) with (interval self).
  change (previous_time (__unset_state self CHANGED_STATE))
    with (previous_time self).
  assert (HU : __get_state (__unset_state self CHANGED_STATE) UNSTABLE_STATE
               = unstable_state self) by (flags; apply andb_true_r).
  assert (HD : __get_state (__unset_state self CHANGED_STATE) DEBOUNCED_STATE
               = debounced_state self) by (flags; apply andb_true_r).
  rewrite HU, HD. clear HU HD.
  assert (Hfin : forall P : Prop,
             (forall u d c : bool,
                 u = unstable_state self -> d = debounced_state self ->
                 c = changed_state self -> P) -> P) by eauto.
  apply Hfin; intros u d c Hu Hd Hc; rewrite <- ?Hu, <- ?Hd.
  destruct (Bool.eqb current_state u) eqn:EU;
    destruct (fge (fsub now (previous_time self)) (interval self));
    destruct (Bool.eqb current_state d) eqn:ED;
    cbn [negb andb orb fst];
    repeat split; flags;
    change (__get_state self (2 ^ 0)) with (debounced_state self);
    change (__get_state self (2 ^ 1)) with (unstable_state self);
    change (__get_state self (2 ^ 2)) with (changed_state self);
    rewrite <- ?Hu, <- ?Hd, <- ?Hc;
    destruct current_state, u, d, c; simpl in *; congruence.
Qed.

End UpdateFacts.

(** ** Comparisons of rationals as booleans *)

Lemma Qle_bool_true (x y : Q) : (x <= y)%Q -> Qle_bool x y = true.
Proof. apply Qle_bool_iff. Qed.

Lemma Qle_bool_false (x y : Q) : (y < x)%Q -> Qle_bool x y = false.
Proof.
  intros H. destruct (Qle_bool x y) eqn:E; [|reflexivity].
  apply Qle_bool_iff in E. lra.
Qed.

Lemma Qle_bool_reflect (x y : Q) : reflect (x <= y)%Q (Qle_bool x y).
Proof.
  destruct (Qle_bool x y) eqn:E; constructor.
  - now apply Qle_bool_iff.
  - intros H. apply Qle_bool_iff in H. congruence.
Qed.

(** ** Comparisons and differences of floats *)

Lemma fge_true (a b : float fmt) : (toQ b <= toQ a)%Q -> fge a b = true.
Proof. apply Qle_bool_true. Qed.

Lemma fge_false (a b : float fmt) : (toQ a < toQ b)%Q -> fge a b = false.
Proof. apply Qle_bool_false. Qed.

Lemma fge_reflect (a b : float fmt) : reflect (toQ b <= toQ a)%Q (fge a b).
Proof. apply Qle_bool_reflect. Qed.

(** Rounding keeps a float that lies below the number rounded below the
    result. *)
Lemma nearest_above (a : float fmt) (x : Q) :
  (toQ a <= x)%Q -> (toQ a <= toQ (@nearest fmt x))%Q.
Proof.
  intros H. rewrite <- (nearest_exact fmt a). now apply nearest_monotone.
Qed.

Lemma nearest_nonneg (x : Q) :
  (0 <= x)%Q -> (0 <= toQ (@nearest fmt x))%Q.
Proof.
  intros H. rewrite <- (fzero_exact fmt). apply nearest_above.
  now rewrite (fzero_exact fmt).
Qed.

(** The difference of a float with itself is 0. *)
Lemma fsub_diag (a : float fmt) : (toQ (fsub a a) == 0)%Q.
Proof.
  unfold fsub. apply Qle_antisym.
  - assert (H : (toQ (@nearest fmt (toQ a - toQ a))
                 <= toQ (@nearest fmt (toQ (@fzero fmt))))%Q).
    { apply nearest_monotone. rewrite (fzero_exact fmt). lra. }
    rewrite (nearest_exact fmt fzero), (fzero_exact fmt) in H. exact H.
  - apply nearest_nonneg. lra.
Qed.

(** The difference grows with the float subtracted from and shrinks with
    the float subtracted. *)
Lemma fsub_monotone (a a' b b' : float fmt) :
  (toQ a <= toQ a')%Q -> (toQ b' <= toQ b)%Q ->
  (toQ (fsub a b) <= toQ (fsub a' b'))%Q.
Proof. intros Ha Hb. unfold fsub. apply nearest_monotone. lra. Qed.

(** ** Single calls *)

Section SingleCall.

Variable monotonic : nat -> float fmt.
Variable f : nat -> bool.

Local Open Scope bool_scope.

(** C3. Timer restart on any raw change: when the fresh sample differs
    from the stored [unstable_state], [update] stores the clock reading in
    [previous_time], makes [unstable_state] the new sample, leaves
    [debounced_state] as it was and leaves [changed_state] false. *)
Theorem timer_restart_on_raw_change (self : Debouncer fmt) (w : World) :
  f (polls w) <> unstable_state self ->
  let self' := fst (update monotonic f self w) in
  previous_time self' = monotonic (ticks w)
  /\ unstable_state self' = f (polls w)
  /\ debounced_state self' = debounced_state self
  /\ changed_state self' = false.
Proof.
  intros Hne self'.
  destruct (update_flags monotonic f self w) as (HU & HD & HC & HT & _).
  fold self' in HU, HD, HC, HT.
  assert (E : Bool.eqb (f (polls w)) (unstable_state self) = false)
    by now apply eqb_false_iff.
  assert (A : accepts self (monotonic (ticks w)) (f (polls w)) = false)
    by (unfold accepts; now rewrite E).
  rewrite A in HD, HC, HT. rewrite E in HT. auto.
Qed.

(** C4. Acceptance condition: when the fresh sample equals the stored
    [unstable_state], then if [now - previous_time >= interval], with the
    difference and the comparison those of floats, and the
    sample differs from [debounced_state], [update] makes
    [debounced_state] the sample, sets [changed_state] and stores [now] in
    [previous_time]; if either condition fails, [debounced_state] and
    [previous_time] are as before and [changed_state] is false. *)
Theorem acceptance_condition (self : Debouncer fmt) (w : World) :
  f (polls w) = unstable_state self ->
  let now := monotonic (ticks w) in
  let current_state := f (polls w) in
  let self' := fst (update monotonic f self w) in
  ((toQ (interval self) <= toQ (fsub now (previous_time self)))%Q
     /\ current_state <> debounced_state self ->
   debounced_state self' = current_state
   /\ changed_state self' = true
   /\ previous_time self' = now)
  /\
  (~ ((toQ (interval self) <= toQ (fsub now (previous_time self)))%Q
      /\ current_state <> debounced_state self) ->
   debounced_state self' = debounced_state self
   /\ previous_time self' = previous_time self
   /\ changed_state self' = false).
Proof.
  intros Heq now current_state self'.
  destruct (update_flags monotonic f self w) as (_ & HD & HC & HT & _).
  fold now current_state self' in HD, HC, HT.
  assert (E : Bool.eqb current_state (unstable_state self) = true)
    by (apply eqb_true_iff; exact Heq).
  rewrite E in HT. cbn [negb orb] in HT.
  unfold accepts in *. rewrite E in *. cbn [andb] in *.
  destruct (fge_reflect (fsub now (previous_time self)) (interval self))
    as [Hle|Hlt];
    destruct (Bool.eqb current_state (debounced_state self)) eqn:ED;
    cbn [negb andb] in *.
  - apply eqb_prop in ED. split; [intros [_ Hne]; contradiction | auto].
  - apply eqb_false_iff in ED. split; [auto | intros Hn; tauto].
  - split; [intros [Hle _]; contradiction | auto].
  - split; [intros [Hle _]; contradiction | auto].
Qed.

(** C8. Unstable-state resynchronisation: after every call of [update],
    [unstable_state] is the sample read during that call, whatever the
    clock said and whether or not [debounced_state] changed. *)
Theorem unstable_state_resynchronized (self : Debouncer fmt) (w : World) :
  unstable_state (fst (update monotonic f self w)) = f (polls w).
Proof. apply update_flags. Qed.

End SingleCall.

(** ** Construction, the edge queries and the changed flag *)

Lemma unset_state_idempotent (self : Debouncer fmt) (bits : Z) :
  __unset_state (__unset_state self bits) bits = __unset_state self bits.
Proof.
  unfold __unset_state, with_state; simpl.
  now rewrite <- Z.land_assoc, Z.land_diag.
Qed.

Lemma init_flags (f : nat -> bool) (arg : option (float fmt)) (w : World) :
  let self := fst (__init__ f arg w) in
  debounced_state self = f (polls w)
  /\ unstable_state self = f (polls w)
  /\ changed_state self = false
  /\ previous_time self = fzero
  /\ interval self = interval_of arg
  /\ snd (__init__ f arg w) = {| ticks := ticks w; polls := S (polls w) |}.
Proof.
  unfold __init__, bind, call_f, ret; cbn [fst snd polls ticks].
  destruct (f (polls w)); repeat split.
Qed.

Section Queries.

Variable monotonic : nat -> float fmt.
Variable f : nat -> bool.

Local Open Scope bool_scope.

(** C5. Construction seeding: [__init__] calls the sampled callable
    exactly once (and the clock not at all) and returns an instance whose
    [debounced_state] and [unstable_state] are that sample and whose
    [changed_state] is false; when the sample is true, [value] is true
    and [rose] and [fell] are false before any [update]. *)
Theorem construction_seeding (arg : option (float fmt)) (w : World) :
  let sample := f (polls w) in
  let self := fst (__init__ f arg w) in
  let w' := snd (__init__ f arg w) in
  polls w' = S (polls w)
  /\ ticks w' = ticks w
  /\ debounced_state self = sample
  /\ unstable_state self = sample
  /\ changed_state self = false
  /\ (sample = true ->
      value self = true /\ rose self = false /\ fell self = false).
Proof.
  intros sample self w'.
  destruct (init_flags f arg w) as (HD & HU & HC & _ & _ & HW).
  fold self in HD, HU, HC. fold w' in HW. fold sample in HD, HU.
  rewrite HW. repeat split; auto.
  - unfold value. fold (debounced_state self). congruence.
  - unfold rose. fold (debounced_state self) (changed_state self).
    rewrite HC. apply andb_false_r.
  - unfold fell. fold (debounced_state self) (changed_state self).
    rewrite HC. apply andb_false_r.
Qed.

(** C6. Edge-query formulas: [rose] is [debounced_state AND changed_state]
    and [fell] is [(NOT debounced_state) AND changed_state]; after a call
    of [update], [rose] holds exactly when that call took the debounced
    value from false to true, and [fell] exactly when it took it from
    true to false. *)
Theorem edge_query_formulas (self : Debouncer fmt) (w : World) :
  rose self = debounced_state self && changed_state self
  /\ fell self = negb (debounced_state self) && changed_state self
  /\ let self' := fst (update monotonic f self w) in
     (rose self' = true <->
      debounced_state self = false /\ debounced_state self' = true)
     /\ (fell self' = true <->
         debounced_state self = true /\ debounced_state self' = false).
Proof.
  split; [reflexivity|]. split; [reflexivity|].
  destruct (update_flags monotonic f self w) as (_ & HD & HC & _).
  set (self' := fst (update monotonic f self w)) in *.
  unfold rose, fell.
  fold (debounced_state self') (changed_state self').
  rewrite HC, HD. unfold accepts.
  destruct (Bool.eqb (f (polls w)) (unstable_state self));
    destruct (fge (fsub (monotonic (ticks w)) (previous_time self))
                (interval self));
    destruct (f (polls w)), (debounced_state self);
    cbn; intuition congruence.
Qed.

(** C7. Changed-flag reset: [update] clears [changed_state] before it
    looks at the state, so its outcome does not depend on the flag it
    finds; [changed_state] is true afterwards only if [debounced_state]
    flipped in that very call; and over two calls in a row the flag of
    the first does not survive a second call that does not flip. *)
Theorem changed_flag_reset (self : Debouncer fmt) (w : World) :
  let self' := fst (update monotonic f self w) in
  let w' := snd (update monotonic f self w) in
  let self'' := fst (update monotonic f self' w') in
  update monotonic f self w
    = update monotonic f (__unset_state self CHANGED_STATE) w
  /\ (changed_state self' = true ->
      debounced_state self' = negb (debounced_state self))
  /\ (debounced_state self' = debounced_state self ->
      changed_state self' = false)
  /\ (debounced_state self'' = debounced_state self' ->
      changed_state self'' = false)
  /\ (changed_state self' = true /\ changed_state self'' = true ->
      debounced_state self' = negb (debounced_state self)
      /\ debounced_state self'' = negb (debounced_state self')).
Proof.
  intros self' w' self''.
  assert (step : forall (s : Debouncer fmt) (v : World),
             let s' := fst (update monotonic f s v) in
             (changed_state s' = true ->
              debounced_state s' = negb (debounced_state s))
             /\ (debounced_state s' = debounced_state s ->
                 changed_state s' = false)).
  { intros s v s'.
    destruct (update_flags monotonic f s v) as (_ & HD & HC & _).
    fold s' in HD, HC. rewrite HC, HD. unfold accepts.
    destruct (Bool.eqb (f (polls v)) (unstable_state s));
      destruct (fge (fsub (monotonic (ticks v)) (previous_time s))
                  (interval s));
      destruct (f (polls v)), (debounced_state s);
      cbn; intuition congruence. }
  destruct (step self w) as [S1 S2].
  destruct (step self' w') as [S3 S4].
  fold self' in S1, S2. fold self'' in S3, S4.
  split; [|tauto].
  unfold update, bind. now rewrite unset_state_idempotent.
Qed.

(** C10. Mutual exclusion of edges: in every state reached by
    construction followed by any number of calls of [update], [rose] and
    [fell] are not both true. *)
Theorem rose_fell_exclusive (arg : option (float fmt)) (n : nat) (w : World) :
  let self := fst (run monotonic f arg n w) in
  rose self && fell self = false.
Proof.
  intros self. unfold rose, fell.
  destruct (__get_state self DEBOUNCED_STATE); cbn;
    [apply andb_false_r | reflexivity].
Qed.

End Queries.

(** ** Executions *)

Section Executions.

Variable monotonic : nat -> float fmt.
Variable f : nat -> bool.

Local Open Scope bool_scope.

Lemma updates_snoc (n : nat) (self : Debouncer fmt) (w : World) :
  updates monotonic f (S n) self w =
  update monotonic f (fst (updates monotonic f n self w))
                     (snd (updates monotonic f n self w)).
Proof.
  revert self w. induction n as [|n IH]; intros self w.
  - cbn [updates]. unfold bind, ret. cbn [fst snd].
    destruct (update monotonic f self w); reflexivity.
  - change (updates monotonic f (S (S n)) self w)
      with (let (s, v) := update monotonic f self w in
            updates monotonic f (S n) s v).
    change (updates monotonic f (S n) self w)
      with (let (s, v) := update monotonic f self w in
            updates monotonic f n s v).
    destruct (update monotonic f self w) as [s v]. apply IH.
Qed.

Lemma updates_world (n : nat) (self : Debouncer fmt) (w : World) :
  snd (updates monotonic f n self w) =
  {| ticks := (ticks w + n)%nat; polls := (polls w + n)%nat |}.
Proof.
  induction n as [|n IH].
  - cbn. destruct w; cbn. now rewrite !Nat.add_0_r.
  - rewrite updates_snoc, update_world, IH; cbn [ticks polls].
    now rewrite !Nat.add_succ_r.
Qed.

Lemma updates_interval (n : nat) (self : Debouncer fmt) (w : World) :
  interval (fst (updates monotonic f n self w)) = interval self.
Proof.
  induction n as [|n IH]; [reflexivity|].
  rewrite updates_snoc.
  destruct (update_flags monotonic f
              (fst (updates monotonic f n self w))
              (snd (updates monotonic f n self w))) as (_ & _ & _ & _ & HI).
  now rewrite HI.
Qed.

Lemma updates_add (a b : nat) (self : Debouncer fmt) (w : World) :
  updates monotonic f (a + b) self w =
  updates monotonic f b (fst (updates monotonic f a self w))
                        (snd (updates monotonic f a self w)).
Proof.
  revert self w. induction a as [|a IH]; intros self w; [reflexivity|].
  change (updates monotonic f (S a + b) self w)
    with (let (s, v) := update monotonic f self w in
          updates monotonic f (a + b) s v).
  change (updates monotonic f (S a) self w)
    with (let (s, v) := update monotonic f self w in
          updates monotonic f a s v).
  destruct (update monotonic f self w) as [s v]. apply IH.
Qed.

Lemma run_snoc (arg : option (float fmt)) (n : nat) (w : World) :
  run monotonic f arg (S n) w =
  update monotonic f (fst (run monotonic f arg n w))
                     (snd (run monotonic f arg n w)).
Proof.
  unfold run, bind. destruct (__init__ f arg w) as [s v].
  apply updates_snoc.
Qed.

Lemma run_world (arg : option (float fmt)) (n : nat) :
  snd (run monotonic f arg n boot) = {| ticks := n; polls := S n |}.
Proof.
  unfold run, bind.
  pose proof (init_flags f arg boot) as (_ & _ & _ & _ & _ & HW).
  destruct (__init__ f arg boot) as [s v]. cbn [snd] in HW. subst v.
  now rewrite updates_world.
Qed.

Lemma run_interval (arg : option (float fmt)) (n : nat) (w : World) :
  interval (fst (run monotonic f arg n w)) = interval_of arg.
Proof.
  unfold run, bind.
  pose proof (init_flags f arg w) as (_ & _ & _ & _ & HI & _).
  destruct (__init__ f arg w) as [s v]. cbn [fst] in HI.
  now rewrite updates_interval.
Qed.

Lemma last_change_bounds (k j : nat) :
  last_change f k = Some j -> (1 <= j <= k)%nat.
Proof.
  induction k as [|k IH]; cbn [last_change]; [discriminate|].
  destruct (xorb (f (S k)) (f k)).
  - intros [= <-]. lia.
  - intros H. apply IH in H. lia.
Qed.

End Executions.

(** ** Settling after a single change *)

Section Settling.

Variable monotonic : nat -> float fmt.
Variable f : nat -> bool.

Local Open Scope bool_scope.

Lemma after_S (self : Debouncer fmt) (w : World) (k : nat) :
  after monotonic f self w (S k) =
  fst (update monotonic f (after monotonic f self w k)
         {| ticks := (ticks w + k)%nat; polls := (polls w + k)%nat |}).
Proof.
  unfold after. now rewrite updates_snoc, updates_world.
Qed.

Lemma after_add (self : Debouncer fmt) (w : World) (a d : nat) :
  after monotonic f self w (a + d) =
  after monotonic f (after monotonic f self w a)
    {| ticks := (ticks w + a)%nat; polls := (polls w + a)%nat |} d.
Proof.
  unfold after. now rewrite updates_add, updates_world.
Qed.

Lemma queries_of_flags (s : Debouncer fmt) (d c : bool) :
  debounced_state s = d -> changed_state s = c ->
  value s = d /\ rose s = d && c /\ fell s = negb d && c.
Proof. intros <- <-. repeat split. Qed.

(** While the interval has not elapsed, the change stays pending. *)
Lemma pending_phase (self : Debouncer fmt) (w : World) (b : bool) (n k : nat) :
  changed_once f self w b n ->
  (k < n)%nat ->
  (forall j : nat, (1 <= j <= k)%nat ->
     (measured monotonic w j < toQ (interval self))%Q) ->
  let s := after monotonic f self w (S k) in
  unstable_state s = negb b
  /\ debounced_state s = b
  /\ changed_state s = false
  /\ previous_time s = monotonic (ticks w)
  /\ interval s = interval self.
Proof.
  intros (HU & HD & Hf). induction k as [|k IH]; intros Hk Hel s; subst s.
  - rewrite after_S. unfold after; cbn [updates ret fst].
    destruct (update_flags monotonic f self
                {| ticks := (ticks w + 0)%nat; polls := (polls w + 0)%nat |})
      as (HU' & HD' & HC' & HT' & HI').
    set (s := fst (update monotonic f self _)) in *. clearbody s.
    cbn [ticks polls] in *. rewrite Hf in * by lia.
    assert (A : accepts self (monotonic (ticks w + 0)) (negb b) = false)
      by (unfold accepts; rewrite HU; now destruct b).
    rewrite A in *. rewrite HU in HT'.
    replace (Bool.eqb (negb b) b) with false in HT' by now destruct b.
    rewrite Nat.add_0_r in HT'. cbn [negb orb] in HT'.
    repeat split; congruence.
  - destruct IH as (HU1 & HD1 & HC1 & HT1 & HI1);
      [lia | intros j Hj; apply Hel; lia |].
    rewrite after_S.
    set (s := after monotonic f self w (S k)) in *. clearbody s.
    destruct (update_flags monotonic f s
                {| ticks := (ticks w + S k)%nat;
                   polls := (polls w + S k)%nat |})
      as (HU' & HD' & HC' & HT' & HI').
    cbn [ticks polls] in *. rewrite Hf in * by lia.
    specialize (Hel (S k) ltac:(lia)). unfold measured in Hel.
    assert (A : accepts s (monotonic (ticks w + S k)) (negb b) = false).
    { unfold accepts. rewrite HU1, HT1, HI1, (fge_false _ _ Hel).
      now rewrite andb_false_r. }
    rewrite A in *. rewrite HU1, eqb_reflx in HT'. cbn [negb orb] in HT'.
    repeat split; congruence.
Qed.

(** The call at which the interval is reached takes the change over. *)
Lemma flip_call (self : Debouncer fmt) (w : World) (b : bool) (n i : nat) :
  changed_once f self w b n ->
  (1 <= i < n)%nat ->
  (toQ (interval self) <= measured monotonic w i)%Q ->
  (forall j : nat, (1 <= j < i)%nat ->
     (measured monotonic w j < toQ (interval self))%Q) ->
  let s := after monotonic f self w (S i) in
  unstable_state s = negb b
  /\ debounced_state s = negb b
  /\ changed_state s = true.
Proof.
  intros Hc Hi Hle Hlt s; subst s.
  destruct i as [|k]; [lia|].
  destruct (pending_phase self w b n k Hc) as (HU1 & HD1 & HC1 & HT1 & HI1);
    [lia | intros j Hj; apply Hlt; lia |].
  destruct Hc as (_ & _ & Hf).
  rewrite after_S.
  set (s := after monotonic f self w (S k)) in *. clearbody s.
  destruct (update_flags monotonic f s
              {| ticks := (ticks w + S k)%nat;
                 polls := (polls w + S k)%nat |})
    as (HU' & HD' & HC' & _).
  cbn [ticks polls] in *. rewrite Hf in * by lia.
  unfold measured in Hle.
  assert (A : accepts s (monotonic (ticks w + S k)) (negb b) = true).
  { unfold accepts. rewrite HU1, HD1, HT1, HI1, (fge_true _ _ Hle).
    now destruct b. }
  rewrite A in *. auto.
Qed.

(** Once at rest on the value the input holds, nothing more happens. *)
Lemma rest_phase (s : Debouncer fmt) (v : World) (c : bool) (m k : nat) :
  unstable_state s = c ->
  debounced_state s = c ->
  (forall j : nat, (j < m)%nat -> f (polls v + j)%nat = c) ->
  (k < m)%nat ->
  let s' := after monotonic f s v (S k) in
  unstable_state s' = c /\ debounced_state s' = c /\ changed_state s' = false.
Proof.
  intros HU HD Hf.
  assert (G : forall x : nat, (x <= m)%nat ->
            unstable_state (after monotonic f s v x) = c
            /\ debounced_state (after monotonic f s v x) = c).
  { intros x. induction x as [|x IH]; intros Hx; [now split|].
    destruct IH as [HU1 HD1]; [lia|].
    rewrite after_S.
    destruct (update_flags monotonic f (after monotonic f s v x)
                {| ticks := (ticks v + x)%nat; polls := (polls v + x)%nat |})
      as (HU' & HD' & _).
    cbn [ticks polls] in *. rewrite Hf in * by lia.
    split; [assumption|]. rewrite HD'.
    now destruct (accepts _ _ _). }
  intros Hk s'; subst s'.
  destruct (G k) as [HU1 HD1]; [lia|].
  rewrite after_S.
  destruct (update_flags monotonic f (after monotonic f s v k)
              {| ticks := (ticks v + k)%nat; polls := (polls v + k)%nat |})
    as (HU' & HD' & HC' & _).
  cbn [ticks polls] in *. rewrite Hf in * by lia.
  assert (A : accepts (after monotonic f s v k)
                (monotonic (ticks v + k)) c = false).
  { unfold accepts. rewrite HD1, eqb_reflx. apply andb_false_r. }
  rewrite A in *. repeat split; congruence.
Qed.

(** C1 (as amended). Settle acceptance: the raw sample changes once and
    then holds, and elapsed time is counted from the clock reading of the
    call of [update] that first sees the changed sample, as the float
    difference of the two readings.  That call leaves
    [debounced_state] as it was, with [rose] and [fell] false.  Every
    later call made while the elapsed time is below the interval leaves
    [debounced_state] as it was, with [rose] and [fell] false.  The first
    later call at which the elapsed time reaches the interval flips
    [debounced_state], with [rose] true for low-to-high and [fell] true
    for high-to-low on that call; on every call after it the value stays
    flipped and [rose] and [fell] are false. *)
Theorem settle_acceptance
    (self : Debouncer fmt) (w : World) (b : bool) (n : nat) :
  monotone_clock monotonic ->
  changed_once f self w b n ->
  ((0 < n)%nat ->
   value (after monotonic f self w 1) = b
   /\ rose (after monotonic f self w 1) = false
   /\ fell (after monotonic f self w 1) = false)
  /\ (forall i : nat, (1 <= i < n)%nat ->
      (measured monotonic w i < toQ (interval self))%Q ->
      value (after monotonic f self w (S i)) = b
      /\ rose (after monotonic f self w (S i)) = false
      /\ fell (after monotonic f self w (S i)) = false)
  /\ (forall i : nat, (1 <= i < n)%nat ->
      (toQ (interval self) <= measured monotonic w i)%Q ->
      (forall j : nat, (1 <= j < i)%nat ->
         (measured monotonic w j < toQ (interval self))%Q) ->
      (value (after monotonic f self w (S i)) = negb b
       /\ rose (after monotonic f self w (S i)) = negb b
       /\ fell (after monotonic f self w (S i)) = b)
      /\ forall k : nat, (i < k < n)%nat ->
           value (after monotonic f self w (S k)) = negb b
           /\ rose (after monotonic f self w (S k)) = false
           /\ fell (after monotonic f self w (S k)) = false).
Proof.
  intros Hmono Hc. split; [|split].
  - intros Hn.
    destruct (pending_phase self w b n 0 Hc Hn) as (_ & HD & HC & _);
      [intros j Hj; lia|].
    destruct (queries_of_flags _ _ _ HD HC) as (-> & -> & ->).
    now rewrite !andb_false_r.
  - intros i Hi Hlt.
    destruct (pending_phase self w b n i Hc) as (_ & HD & HC & _);
      [lia | |].
    + intros j Hj.
      apply Qle_lt_trans with (measured monotonic w i); [|assumption].
      unfold measured. apply fsub_monotone; [apply Hmono; lia | lra].
    + destruct (queries_of_flags _ _ _ HD HC) as (-> & -> & ->).
      now rewrite !andb_false_r.
  - intros i Hi Hle Hlt.
    destruct (flip_call self w b n i Hc Hi Hle Hlt) as (HU & HD & HC).
    split.
    + destruct (queries_of_flags _ _ _ HD HC) as (-> & -> & ->).
      now destruct b.
    + intros k Hk.
      replace (S k) with (S i + S (k - i - 1))%nat by lia.
      rewrite after_add.
      destruct Hc as (_ & _ & Hf).
      destruct (rest_phase (after monotonic f self w (S i))
                  {| ticks := (ticks w + S i)%nat;
                     polls := (polls w + S i)%nat |}
                  (negb b) (n - S i) (k - i - 1) HU HD)
        as (_ & HD' & HC'); [| lia |].
      * intros j Hj. cbn [polls].
        rewrite <- Nat.add_assoc. apply Hf. lia.
      * destruct (queries_of_flags _ _ _ HD' HC') as (-> & -> & ->).
        now rewrite !andb_false_r.
Qed.

(** With a positive interval the call that sees the change is itself made
    while the elapsed time is below the interval, so every call can be
    counted. *)
Lemma settle_acceptance_positive_interval
    (self : Debouncer fmt) (w : World) (b : bool) (n : nat) :
  (0 < toQ (interval self))%Q ->
  monotone_clock monotonic ->
  changed_once f self w b n ->
  forall i : nat, (i < n)%nat ->
    (toQ (interval self) <= measured monotonic w i)%Q ->
    (forall j : nat, (j < i)%nat ->
       (measured monotonic w j < toQ (interval self))%Q) ->
    value (after monotonic f self w (S i)) = negb b
    /\ rose (after monotonic f self w (S i)) = negb b
    /\ fell (after monotonic f self w (S i)) = b.
Proof.
  intros Hpos Hmono Hc i Hi Hle Hlt.
  assert (i <> 0)%nat.
  { intros ->. unfold measured in Hle.
    rewrite Nat.add_0_r, fsub_diag in Hle. lra. }
  destruct (flip_call self w b n i Hc) as (HU & HD & HC);
    [lia | assumption | intros j Hj; apply Hlt; lia |].
  destruct (queries_of_flags _ _ _ HD HC) as (-> & -> & ->).
  now destruct b.
Qed.

End Settling.

(** ** Bouncing input *)

Section Bouncing.

Variable monotonic : nat -> float fmt.
Variable f : nat -> bool.

Local Open Scope bool_scope.

Lemma last_change_from_bounds (before : bool) (g : nat -> bool) (i j : nat) :
  last_change_from before g i = Some j -> (j <= i)%nat.
Proof.
  induction i as [|i IH]; cbn [last_change_from].
  - destruct (xorb (g O) before); [intros [= <-]; lia | discriminate].
  - destruct (xorb (g (S i)) (g i)).
    + intros [= <-]. lia.
    + intros H. apply IH in H. lia.
Qed.

Lemma last_change_from_none (before : bool) (g : nat -> bool) (i : nat) :
  last_change_from before g i = None -> g i = before.
Proof.
  induction i as [|i IH]; cbn [last_change_from].
  - destruct (g O), before; cbn; congruence.
  - destruct (xorb (g (S i)) (g i)) eqn:E; [discriminate|].
    intros H. rewrite <- (IH H). now destruct (g (S i)), (g i).
Qed.

(** What a bouncing input leaves in the instance after each call. *)
Lemma bouncing_from_invariant (self : Debouncer fmt) (w : World) (n i : nat) :
  bouncing_from monotonic f self w n ->
  (i < n)%nat ->
  let s := after monotonic f self w (S i) in
  unstable_state s = f (polls w + i)%nat
  /\ debounced_state s = debounced_state self
  /\ changed_state s = false
  /\ interval s = interval self
  /\ match last_change_from (unstable_state self)
             (fun k => f (polls w + k)%nat) i with
     | None => True
     | Some j => previous_time s = monotonic (ticks w + j)%nat
     end.
Proof.
  intros Hb. induction i as [|i IH]; intros Hi s; subst s.
  - rewrite after_S. unfold after; cbn [updates ret fst].
    destruct (update_flags monotonic f self
                {| ticks := (ticks w + 0)%nat; polls := (polls w + 0)%nat |})
      as (HU' & HD' & HC' & HT' & HI').
    set (s := fst (update monotonic f self _)) in *. clearbody s.
    cbn [ticks polls] in *.
    specialize (Hb O Hi). cbn [last_change_from] in Hb |- *.
    assert (A : accepts self (monotonic (ticks w + 0))
                  (f (polls w + 0)%nat) = false).
    { unfold accepts.
      destruct (xorb (f (polls w + 0)%nat) (unstable_state self)) eqn:E.
      - replace (Bool.eqb (f (polls w + 0)%nat) (unstable_state self))
          with false; [reflexivity|].
        now destruct (f (polls w + 0)%nat), (unstable_state self).
      - replace (Bool.eqb (f (polls w + 0)%nat) (debounced_state self))
          with true; [apply andb_false_r|].
        rewrite Hb.
        now destruct (f (polls w + 0)%nat), (unstable_state self). }
    rewrite A in HD', HC', HT'. rewrite orb_false_r in HT'.
    repeat split; try assumption.
    destruct (f (polls w + 0)%nat), (unstable_state self);
      cbn [xorb Bool.eqb negb] in *; auto.
  - destruct IH as (HU & HD & HC & HI & HL); [lia|].
    rewrite after_S.
    set (s := after monotonic f self w (S i)) in *. clearbody s.
    destruct (update_flags monotonic f s
                {| ticks := (ticks w + S i)%nat;
                   polls := (polls w + S i)%nat |})
      as (HU' & HD' & HC' & HT' & HI').
    set (s' := fst (update monotonic f s _)) in *. clearbody s'.
    cbn [ticks polls] in *.
    specialize (Hb (S i) Hi). cbn [last_change_from] in Hb |- *.
    assert (A : accepts s (monotonic (ticks w + S i))
                  (f (polls w + S i)%nat) = false).
    { unfold accepts. rewrite HU, HD, HI.
      destruct (Bool.eqb (f (polls w + S i)%nat) (f (polls w + i)%nat)) eqn:E;
        [|reflexivity].
      apply eqb_prop in E. rewrite E, xorb_nilpotent in Hb.
      cbn [andb].
      destruct (last_change_from (unstable_state self)
                  (fun k => f (polls w + k)%nat) i) as [j|] eqn:EL.
      - pose proof (last_change_from_bounds _ _ _ _ EL) as Hj.
        destruct Hb as [Hb|Hb]; [lia|].
        rewrite HL. now rewrite (fge_false _ _ Hb).
      - apply last_change_from_none in EL. cbn beta in EL.
        rewrite E, EL, <- Hb, eqb_reflx. apply andb_false_r. }
    rewrite A in HD', HC', HT'. rewrite HU, orb_false_r in HT'.
    repeat split; try congruence.
    destruct (f (polls w + S i)%nat), (f (polls w + i)%nat);
      cbn [xorb Bool.eqb negb] in *; try assumption;
      destruct (last_change_from (unstable_state self)
                  (fun k => f (polls w + k)%nat) i); congruence.
Qed.

(** C2. Bounce rejection: from any state, while the raw samples keep
    changing with less than the interval, as the class measures it, between
    a change and the calls that follow it, [debounced_state] stays what it
    was and [rose] and [fell] are false after every call of [update]. *)
Theorem bounce_rejection (self : Debouncer fmt) (w : World) (n : nat) :
  bouncing_from monotonic f self w n ->
  forall i : nat, (i < n)%nat ->
    let s := after monotonic f self w (S i) in
    debounced_state s = debounced_state self
    /\ value s = value self
    /\ rose s = false
    /\ fell s = false.
Proof.
  intros Hb i Hi s.
  destruct (bouncing_from_invariant self w n i Hb Hi) as (_ & HD & HC & _).
  fold s in HD, HC.
  unfold value, rose, fell.
  fold (debounced_state s) (changed_state s) (debounced_state self).
  rewrite HC, !andb_false_r. auto.
Qed.

(** An input that differs at every sample, the first one from the sample the
    instance saw last, bounces whatever the clock and the interval. *)
Lemma alternation_bounces (self : Debouncer fmt) (w : World) (n : nat) :
  f (polls w + 0)%nat = negb (unstable_state self) ->
  (forall k : nat, f (polls w + S k)%nat = negb (f (polls w + k)%nat)) ->
  bouncing_from monotonic f self w n.
Proof.
  intros H0 Halt i Hi. destruct i as [|i]; cbn [last_change_from].
  - rewrite H0. destruct (unstable_state self); cbn [negb xorb]; now left.
  - rewrite Halt. destruct (f (polls w + i)%nat); cbn [negb xorb]; now left.
Qed.

(** Bounce rejection for an execution that bounces from construction on:
    the debounced value stays the sample taken by the constructor. *)
Lemma bounce_rejection_from_construction
    (arg : option (float fmt)) (n k : nat) :
  bouncing_from monotonic f
    (fst (__init__ f arg boot)) (snd (__init__ f arg boot)) n ->
  (k <= n)%nat ->
  let self := fst (run monotonic f arg k boot) in
  debounced_state self = f 0%nat
  /\ value self = f 0%nat
  /\ rose self = false
  /\ fell self = false.
Proof.
  intros Hb Hk self. subst self. unfold run, bind.
  pose proof (init_flags f arg boot) as (HD & _ & HC & _).
  destruct (__init__ f arg boot) as [s v]. cbn [fst snd] in *.
  destruct k as [|k].
  - cbn [updates ret fst].
    destruct (queries_of_flags _ _ _ HD HC) as (-> & -> & ->).
    now rewrite !andb_false_r.
  - destruct (bouncing_from_invariant s v n k Hb) as (_ & HD' & HC' & _);
      [lia|].
    unfold after in HD', HC'. rewrite HD in HD'.
    destruct (queries_of_flags _ _ _ HD' HC') as (-> & -> & ->).
    now rewrite !andb_false_r.
Qed.

End Bouncing.

(** ** Intervals that are zero or negative *)

Section Degenerate.

Variable monotonic : nat -> float fmt.
Variable f : nat -> bool.

Local Open Scope bool_scope.

(** In an execution the stored [previous_time] is never ahead of the next
    clock reading: it is the initial 0 or an earlier reading. *)
Lemma run_previous_time (arg : option (float fmt)) (n : nat) :
  monotone_clock monotonic ->
  (0 <= toQ (monotonic 0%nat))%Q ->
  (toQ (previous_time (fst (run monotonic f arg n boot)))
   <= toQ (monotonic n))%Q.
Proof.
  intros Hmono H0. induction n as [|n IH].
  - unfold run, bind.
    pose proof (init_flags f arg boot) as (_ & _ & _ & HT & _).
    destruct (__init__ f arg boot) as [s v]. cbn [fst updates ret] in *.
    now rewrite HT, (fzero_exact fmt).
  - rewrite run_snoc.
    pose proof (run_world monotonic f arg n) as HW.
    destruct (run monotonic f arg n boot) as [s v].
    cbn [fst snd] in *. subst v.
    destruct (update_flags monotonic f s {| ticks := n; polls := S n |})
      as (_ & _ & _ & HT & _).
    cbn [ticks polls] in HT. rewrite HT.
    pose proof (Hmono n (S n) ltac:(lia)).
    destruct (_ || _); lra.
Qed.

(** With an interval that is not positive, a call whose elapsed time is
    not negative passes the elapsed-time test. *)
Lemma elapsed_test_passes (self : Debouncer fmt) (now : float fmt) :
  (toQ (interval self) <= 0)%Q ->
  (toQ (previous_time self) <= toQ now)%Q ->
  fge (fsub now (previous_time self)) (interval self) = true.
Proof.
  intros Hi Ht. apply fge_true.
  apply Qle_trans with 0%Q; [assumption|].
  unfold fsub. apply nearest_nonneg. lra.
Qed.

(** With an interval that is not positive and an elapsed time that is not
    negative, a sample that equals [unstable_state] and differs from
    [debounced_state] is taken over by the call that reads it. *)
Lemma accepted_at_once (self : Debouncer fmt) (w : World) :
  (toQ (interval self) <= 0)%Q ->
  (toQ (previous_time self) <= toQ (monotonic (ticks w)))%Q ->
  f (polls w) = unstable_state self ->
  f (polls w) <> debounced_state self ->
  let self' := fst (update monotonic f self w) in
  debounced_state self' = f (polls w) /\ changed_state self' = true.
Proof.
  intros Hi Ht HU HD self'.
  destruct (update_flags monotonic f self w) as (_ & HD' & HC' & _).
  fold self' in HD', HC'.
  assert (A : accepts self (monotonic (ticks w)) (f (polls w)) = true).
  { unfold accepts.
    rewrite (elapsed_test_passes self _ Hi Ht), <- HU, eqb_reflx.
    apply eqb_false_iff in HD. now rewrite HD. }
  rewrite A in HD', HC'. auto.
Qed.

(** C9. Degenerate intervals: the constructor stores whatever interval it
    is given.  With an interval that is zero or negative, any call of
    [update] whose elapsed time is not negative, whose sample equals
    [unstable_state] and differs from [debounced_state], takes the
    transition over at once; and in an execution the elapsed-time test
    passes at every call, so there the transition is taken over by the
    first call whose sample equals the one seen before. *)
Theorem degenerate_interval (q : float fmt) (n : nat) :
  (toQ q <= 0)%Q ->
  monotone_clock monotonic ->
  (0 <= toQ (monotonic 0%nat))%Q ->
  let self := fst (run monotonic f (Some q) n boot) in
  let w := snd (run monotonic f (Some q) n boot) in
  let now := monotonic (ticks w) in
  let current_state := f (polls w) in
  let self' := fst (update monotonic f self w) in
  (forall (q' : float fmt) (m : nat) (v : World),
      interval (fst (run monotonic f (Some q') m v)) = q')
  /\ (forall (s : Debouncer fmt) (v : World),
        (toQ (interval s) <= 0)%Q ->
        (0 <= toQ (monotonic (ticks v)) - toQ (previous_time s))%Q ->
        f (polls v) = unstable_state s ->
        f (polls v) <> debounced_state s ->
        debounced_state (fst (update monotonic f s v)) = f (polls v)
        /\ changed_state (fst (update monotonic f s v)) = true)
  /\ interval self = q
  /\ fge (fsub now (previous_time self)) (interval self) = true
  /\ (current_state = unstable_state self ->
      current_state <> debounced_state self ->
      debounced_state self' = current_state
      /\ changed_state self' = true
      /\ rose self' = current_state
      /\ fell self' = negb current_state).
Proof.
  intros Hq Hmono H0 self w now current_state self'.
  assert (HI : interval self = q) by apply run_interval.
  assert (HT : (toQ (previous_time self) <= toQ now)%Q).
  { subst now w self. rewrite run_world. cbn [ticks].
    now apply run_previous_time. }
  split; [intros q' m v; apply run_interval|].
  split; [intros s v Hs Hv; apply accepted_at_once; [assumption | lra]|].
  split; [assumption|].
  split; [apply elapsed_test_passes; [now rewrite HI | assumption]|].
  intros HU HD.
  destruct (accepted_at_once self w) as (HD' & HC'); auto;
    [now rewrite HI|].
  fold self' current_state in HD', HC'.
  destruct (queries_of_flags _ _ _ HD' HC') as (_ & -> & ->).
  rewrite !andb_true_r. auto.
Qed.

End Degenerate.

(** ** The four private helpers on arbitrary masks *)

Section Helpers.

Local Open Scope bool_scope.

Lemma get_state_land (self : Debouncer fmt) (s' bits : Z) :
  Z.land s' bits = Z.land (state self) bits ->
  __get_state (with_state self s') bits = __get_state self bits.
Proof. unfold __get_state; cbn [state with_state]. now intros ->. Qed.

(** X1. Writing a mask and reading it back: after [__set_state] the mask reads
    true unless it is empty, and after [__unset_state] it reads false. *)
Theorem flag_write_read (self : Debouncer fmt) (bits : Z) :
  __get_state (__set_state self bits) bits = negb (bits =? 0)
  /\ __get_state (__unset_state self bits) bits = false.
Proof.
  unfold __get_state, __set_state, __unset_state; cbn [state with_state].
  assert (E1 : Z.land (Z.lor (state self) bits) bits = bits).
  { apply Z.bits_inj'. intros n Hn.
    rewrite Z.land_spec, Z.lor_spec.
    now destruct (Z.testbit (state self) n), (Z.testbit bits n). }
  assert (E2 : Z.land (Z.land (state self) (Z.lnot bits)) bits = 0).
  { apply Z.bits_inj'. intros n Hn.
    rewrite !Z.land_spec, Z.lnot_spec, Z.bits_0 by assumption.
    now destruct (Z.testbit (state self) n), (Z.testbit bits n). }
  now rewrite E1, E2.
Qed.

(** X2. [__toggle_state] is its own inverse, whatever the mask. *)
Theorem toggle_state_involutive (self : Debouncer fmt) (bits : Z) :
  __toggle_state (__toggle_state self bits) bits = self.
Proof.
  destruct self as [s t i].
  unfold __toggle_state, with_state; cbn [state previous_time interval].
  now rewrite Z.lxor_assoc, Z.lxor_nilpotent, Z.lxor_0_r.
Qed.

(** X3. On a mask of a single bit [__toggle_state] negates what [__get_state]
    reads; this is what lets [update] use it as an assignment. *)
Theorem toggle_single_bit_negates (self : Debouncer fmt) (k : Z) :
  0 <= k ->
  __get_state (__toggle_state self (2 ^ k)) (2 ^ k)
  = negb (__get_state self (2 ^ k)).
Proof.
  intros Hk. rewrite get_toggle by assumption.
  rewrite Z.eqb_refl. apply xorb_true_r.
Qed.

(** X4. Frame: writing, clearing or toggling a mask leaves every read of a
    mask that shares no bit with it as it was. *)
Theorem disjoint_mask_frame (self : Debouncer fmt) (a b : Z) :
  Z.land a b = 0 ->
  __get_state (__set_state self a) b = __get_state self b
  /\ __get_state (__unset_state self a) b = __get_state self b
  /\ __get_state (__toggle_state self a) b = __get_state self b.
Proof.
  intros Hab.
  assert (Hbit : forall n : Z, Z.testbit a n && Z.testbit b n = false).
  { intros n. now rewrite <- Z.land_spec, Hab, Z.bits_0. }
  repeat split; apply get_state_land; apply Z.bits_inj'; intros n Hn;
    specialize (Hbit n);
    rewrite ?Z.land_spec, ?Z.lor_spec, ?Z.lxor_spec, ?Z.lnot_spec by assumption;
    destruct (Z.testbit (state self) n), (Z.testbit a n), (Z.testbit b n);
    cbn in *; congruence.
Qed.

End Helpers.

(** ** What every call keeps *)

Section Keeps.

Variable monotonic : nat -> float fmt.
Variable f : nat -> bool.

Local Open Scope bool_scope.

Lemma mask_high_bits (k : Z) :
  3 <= k ->
  Z.testbit DEBOUNCED_STATE k = false
  /\ Z.testbit UNSTABLE_STATE k = false
  /\ Z.testbit CHANGED_STATE k = false.
Proof.
  intros Hk.
  change DEBOUNCED_STATE with (2 ^ 0).
  change UNSTABLE_STATE with (2 ^ 1).
  change CHANGED_STATE with (2 ^ 2).
  rewrite !Z.pow2_bits_eqb by lia.
  repeat split; apply Z.eqb_neq; lia.
Qed.

(** [update] leaves every bit of the state word above the three flags as
    it found it. *)
Lemma update_high_bits (self : Debouncer fmt) (w : World) (k : Z) :
  3 <= k ->
  Z.testbit (state (fst (update monotonic f self w))) k
  = Z.testbit (state self) k.
Proof.
  intros Hk. destruct (mask_high_bits k Hk) as (HD & HU & HC).
  unfold update, bind, time_monotonic, call_f, ret.
  repeat match goal with
         | |- context [if ?c then _ else _] => destruct c
         end;
    cbn [fst state with_state with_previous_time
           __set_state __unset_state __toggle_state];
    rewrite ?Z.lor_spec, ?Z.lxor_spec, ?Z.land_spec, ?Z.lnot_spec by lia;
    rewrite ?HD, ?HU, ?HC;
    now destruct (Z.testbit (state self) k).
Qed.

Lemma low_word (s : Z) :
  (forall k : Z, 3 <= k -> Z.testbit s k = false) -> 0 <= s < 8.
Proof.
  intros Hhigh.
  assert (E : s = Z.land s (Z.ones 3)).
  { apply Z.bits_inj'. intros n Hn. rewrite Z.land_spec.
    destruct (Z.lt_ge_cases n 3) as [Hlt|Hge].
    - rewrite Z.ones_spec_low by lia. now rewrite andb_true_r.
    - now rewrite (Hhigh n Hge). }
  rewrite Z.land_ones in E by lia.
  rewrite E. apply Z.mod_pos_bound. reflexivity.
Qed.

Lemma init_state_word (arg : option (float fmt)) (w : World) :
  state (fst (__init__ f arg w)) = if f (polls w) then 3 else 0.
Proof.
  unfold __init__, bind, call_f, ret; cbn [fst].
  now destruct (f (polls w)).
Qed.

(** X5. The state word stays within the three flags: in every execution it is
    one of 0 .. 7. *)
Theorem state_word_range (arg : option (float fmt)) (n : nat) (w : World) :
  0 <= state (fst (run monotonic f arg n w)) < 8.
Proof.
  apply low_word. intros k Hk.
  induction n as [|n IH].
  - unfold run, bind.
    pose proof (init_state_word arg w) as HS.
    destruct (__init__ f arg w) as [s v]. cbn [fst updates ret] in *.
    rewrite HS. destruct (f (polls w)).
    + change 3 with (Z.ones 2). apply Z.ones_spec_high. lia.
    + apply Z.bits_0.
  - rewrite run_snoc, update_high_bits by assumption. exact IH.
Qed.

(** X6. Construction followed by [n] calls of [update] reads the input exactly
    [n + 1] times and the clock exactly [n] times, on every path, and the
    interval is still what the constructor stored. *)
Theorem execution_reads (arg : option (float fmt)) (n : nat) (w : World) :
  snd (run monotonic f arg n w)
  = {| ticks := (ticks w + n)%nat; polls := (S (polls w) + n)%nat |}
  /\ interval (fst (run monotonic f arg n w)) = interval_of arg.
Proof.
  split; [|apply run_interval].
  unfold run, bind.
  pose proof (init_flags f arg w) as (_ & _ & _ & _ & _ & HW).
  destruct (__init__ f arg w) as [s v]. cbn [snd] in HW. subst v.
  now rewrite updates_world.
Qed.

(** X7. An edge is never reported by two calls in a row: the call after one that
    set [changed_state] leaves it clear and the debounced value alone. *)
Theorem no_edge_on_consecutive_calls (self : Debouncer fmt) (w : World) :
  let self' := fst (update monotonic f self w) in
  let w' := snd (update monotonic f self w) in
  let self'' := fst (update monotonic f self' w') in
  changed_state self' = true ->
  changed_state self'' = false
  /\ debounced_state self'' = debounced_state self'.
Proof.
  intros self' w' self'' Hc.
  destruct (update_flags monotonic f self w) as (HU & HD & HC & _).
  fold self' in HU, HD, HC. rewrite Hc in HC. rewrite <- HC in HD.
  destruct (update_flags monotonic f self' w') as (_ & HD' & HC' & _).
  fold self'' in HD', HC'.
  assert (A : accepts self' (monotonic (ticks w')) (f (polls w')) = false).
  { unfold accepts. rewrite HU, HD.
    destruct (Bool.eqb (f (polls w')) (f (polls w))); cbn [andb negb];
      [apply andb_false_r | reflexivity]. }
  rewrite A in HD', HC'. auto.
Qed.

End Keeps.

(** ** Distance between reported edges *)

Section Spacing.

Variable monotonic : nat -> float fmt.
Variable f : nat -> bool.

Local Open Scope bool_scope.

Lemma accept_sets_timer (self : Debouncer fmt) (w : World) :
  changed_state (fst (update monotonic f self w)) = true ->
  previous_time (fst (update monotonic f self w)) = monotonic (ticks w).
Proof.
  intros Hc.
  destruct (update_flags monotonic f self w) as (_ & _ & HC & HT & _).
  rewrite Hc in HC. rewrite <- HC, orb_true_r in HT. exact HT.
Qed.

(** After a call that reported an edge, the timer holds the clock reading of
    that call or of a later one. *)
Lemma timer_after_edge (self : Debouncer fmt) (w : World) (i d : nat) :
  changed_state (after monotonic f self w (S i)) = true ->
  exists m : nat,
    (i <= m <= i + d)%nat
    /\ previous_time (after monotonic f self w (S i + d))
       = monotonic (ticks w + m)%nat.
Proof.
  intros Hc. induction d as [|d (m & Hm & IH)].
  - exists i. split; [lia|].
    rewrite Nat.add_0_r. rewrite after_S in *.
    now apply accept_sets_timer.
  - replace (S i + S d)%nat with (S (S i + d)) by lia.
    rewrite after_S.
    destruct (update_flags monotonic f (after monotonic f self w (S i + d))
                {| ticks := (ticks w + (S i + d))%nat;
                   polls := (polls w + (S i + d))%nat |})
      as (_ & _ & _ & HT & _).
    cbn [ticks polls] in HT. rewrite HT.
    destruct (_ || _).
    + exists (S i + d)%nat. split; [lia | reflexivity].
    + exists m. split; [lia | exact IH].
Qed.

(** X8. Two reported edges are at least the interval apart as the class
    measures time: if the calls numbered [i] and [j] of one polling loop
    both set [changed_state], the float difference of the clock readings of
    the two calls is the interval or more. *)
Theorem edges_at_least_interval_apart
    (self : Debouncer fmt) (w : World) (i j : nat) :
  monotone_clock monotonic ->
  (i < j)%nat ->
  changed_state (after monotonic f self w (S i)) = true ->
  changed_state (after monotonic f self w (S j)) = true ->
  (toQ (interval self)
   <= toQ (fsub (monotonic (ticks w + j)%nat) (monotonic (ticks w + i)%nat)))%Q.
Proof.
  intros Hmono Hij Hi Hj.
  destruct (timer_after_edge self w i (j - S i) Hi) as (m & Hm & HT).
  replace (S i + (j - S i))%nat with j in HT by lia.
  rewrite after_S in Hj.
  destruct (update_flags monotonic f (after monotonic f self w j)
              {| ticks := (ticks w + j)%nat; polls := (polls w + j)%nat |})
    as (_ & _ & HC & _).
  cbn [ticks polls] in HC. rewrite Hj in HC. symmetry in HC.
  unfold accepts in HC.
  apply andb_true_iff in HC. destruct HC as [HC _].
  apply andb_true_iff in HC. destruct HC as [_ HC].
  unfold fge in HC. apply Qle_bool_iff in HC.
  unfold after in HC at 1. rewrite updates_interval, HT in HC.
  apply Qle_trans with (1 := HC).
  apply fsub_monotone; [lra | apply Hmono; lia].
Qed.

End Spacing.

(** ** What stands behind a reported edge *)

Section Backing.

Variable monotonic : nat -> float fmt.
Variable f : nat -> bool.

Local Open Scope bool_scope.

Lemma last_change_spec (k j : nat) :
  last_change f k = Some j ->
  f j = negb (f (j - 1)%nat)
  /\ forall i : nat, (j <= i <= k)%nat -> f i = f k.
Proof.
  induction k as [|k IH]; cbn [last_change]; [discriminate|].
  destruct (xorb (f (S k)) (f k)) eqn:E.
  - intros [= <-]. replace (S k - 1)%nat with k by lia. split.
    + now destruct (f (S k)), (f k).
    + intros i Hi. now replace i with (S k) by lia.
  - intros H. pose proof (last_change_bounds f _ _ H) as Hb.
    destruct (IH H) as [Hj Hall]. split; [exact Hj|].
    assert (Hsame : f (S k) = f k) by now destruct (f (S k)), (f k).
    intros i Hi. destruct (Nat.eq_dec i (S k)) as [->|Hne]; [reflexivity|].
    rewrite Hsame. apply Hall. lia.
Qed.

(** In an execution, [unstable_state] is the latest sample, and while a
    change is pending the timer holds the clock reading of the call that
    first saw the latest raw change. *)
Lemma pending_timer_invariant (arg : option (float fmt)) (k : nat) :
  let s := fst (run monotonic f arg k boot) in
  unstable_state s = f k
  /\ (debounced_state s <> unstable_state s ->
      exists j : nat,
        last_change f k = Some j
        /\ previous_time s = monotonic (j - 1)%nat).
Proof.
  induction k as [|k (HU & HP)]; intros s; subst s.
  - unfold run, bind.
    pose proof (init_flags f arg boot) as (HD & HU & _).
    destruct (__init__ f arg boot) as [s v]. cbn [fst updates ret] in *.
    split; [assumption|]. intros Hne. congruence.
  - rewrite run_snoc.
    pose proof (run_world monotonic f arg k) as HW.
    destruct (run monotonic f arg k boot) as [s v].
    cbn [fst snd] in *. subst v.
    destruct (update_flags monotonic f s {| ticks := k; polls := S k |})
      as (HU' & HD' & _ & HT' & _).
    cbn [ticks polls] in *.
    set (s' := fst (update monotonic f s {| ticks := k; polls := S k |})) in *.
    clearbody s'.
    split; [assumption|]. intros Hne. cbn [last_change].
    rewrite HU in HT'.
    destruct (accepts s (monotonic k) (f (S k))) eqn:A; [congruence|].
    rewrite orb_false_r in HT'.
    destruct (f (S k)) eqn:E1, (f k) eqn:E2;
      cbn [xorb Bool.eqb negb] in *.
    + destruct HP as (j & HL & HT); [congruence|].
      exists j. split; congruence.
    + exists (S k). split; [reflexivity|].
      now replace (S k - 1)%nat with k by lia.
    + exists (S k). split; [reflexivity|].
      now replace (S k - 1)%nat with k by lia.
    + destruct HP as (j & HL & HT); [congruence|].
      exists j. split; congruence.
Qed.

(** X9. Every reported edge is backed by the input: when the call numbered
    [S k] of an execution sets [changed_state], the input last changed at
    some sample [j], the new [value] is what every sample from [j] on has
    been, and the float difference between the clock reading of this call
    and that of the call that first saw sample [j] is the interval or
    more. *)
Theorem edge_backed_by_steady_samples (arg : option (float fmt)) (k : nat) :
  changed_state (fst (run monotonic f arg (S k) boot)) = true ->
  exists j : nat,
    (1 <= j <= k)%nat
    /\ f j = negb (f (j - 1)%nat)
    /\ (forall i : nat, (j <= i <= S k)%nat ->
          f i = value (fst (run monotonic f arg (S k) boot)))
    /\ (toQ (interval_of arg)
        <= toQ (fsub (monotonic k) (monotonic (j - 1)%nat)))%Q.
Proof.
  rewrite run_snoc.
  pose proof (run_world monotonic f arg k) as HW.
  pose proof (run_interval monotonic f arg k boot) as HI.
  destruct (pending_timer_invariant arg k) as (HU & HP).
  destruct (run monotonic f arg k boot) as [s v].
  cbn [fst snd] in *. subst v.
  destruct (update_flags monotonic f s {| ticks := k; polls := S k |})
    as (_ & HD' & HC' & _).
  cbn [ticks polls] in *. intros Hc.
  unfold value.
  fold (debounced_state
          (fst (update monotonic f s {| ticks := k; polls := S k |}))).
  rewrite Hc in HC'. symmetry in HC'. rewrite HC' in HD'. rewrite HD'.
  unfold accepts in HC'.
  apply andb_true_iff in HC'. destruct HC' as [HC' Hd].
  apply andb_true_iff in HC'. destruct HC' as [Hu Hq].
  apply eqb_prop in Hu. unfold fge in Hq. apply Qle_bool_iff in Hq.
  apply negb_true_iff, eqb_false_iff in Hd.
  destruct HP as (j & HL & HT); [congruence|].
  pose proof (last_change_bounds f _ _ HL) as Hb.
  destruct (last_change_spec _ _ HL) as [Hj Hall].
  exists j. repeat split; try lia; try assumption.
  - intros i Hi. destruct (Nat.eq_dec i (S k)) as [->|Hne]; [reflexivity|].
    rewrite Hu, HU. apply Hall. lia.
  - rewrite HI, HT in Hq. exact Hq.
Qed.

End Backing.

(** ** Settling from any state *)

Section Convergence.

Variable monotonic : nat -> float fmt.
Variable f : nat -> bool.

Local Open Scope bool_scope.

(** While the input holds [c], from the first call on: [unstable_state] is
    [c], and the debounced value is [c] already or the timer is no later
    than the clock reading of the first call. *)
Lemma holding_invariant (self : Debouncer fmt) (w : World) (c : bool) (n m : nat) :
  (toQ (previous_time self) <= toQ (monotonic (ticks w)))%Q ->
  (forall i : nat, (i < n)%nat -> f (polls w + i)%nat = c) ->
  (m < n)%nat ->
  let s := after monotonic f self w (S m) in
  unstable_state s = c
  /\ interval s = interval self
  /\ (debounced_state s = c
      \/ (toQ (previous_time s) <= toQ (monotonic (ticks w)))%Q).
Proof.
  intros Hp Hf. induction m as [|m IH]; intros Hm s; subst s.
  - rewrite after_S. unfold after; cbn [updates ret fst].
    destruct (update_flags monotonic f self
                {| ticks := (ticks w + 0)%nat; polls := (polls w + 0)%nat |})
      as (HU' & _ & _ & HT' & HI').
    set (s := fst (update monotonic f self _)) in *. clearbody s.
    cbn [ticks polls] in *. rewrite Hf in * by lia.
    rewrite Nat.add_0_r in HT'.
    repeat split; try assumption. right. rewrite HT'.
    destruct (_ || _); lra.
  - destruct IH as (HU & HI & HJ); [lia|].
    rewrite after_S.
    set (s := after monotonic f self w (S m)) in *. clearbody s.
    destruct (update_flags monotonic f s
                {| ticks := (ticks w + S m)%nat;
                   polls := (polls w + S m)%nat |})
      as (HU' & HD' & _ & HT' & HI').
    set (s' := fst (update monotonic f s _)) in *. clearbody s'.
    cbn [ticks polls] in *. rewrite Hf in * by lia.
    rewrite HU, eqb_reflx in HT'. cbn [negb orb] in HT'.
    repeat split; try congruence.
    destruct (accepts s (monotonic (ticks w + S m)) c).
    + now left.
    + destruct HJ as [HJ|HJ]; [left | right]; congruence.
Qed.

(** X10. Settling from any state: if the input holds [c] from some call on and
    the timer is not ahead of the clock at that call, then from the first
    later call whose clock reading is the interval or more past that of
    the first call, [value] is [c] for as long as the input holds. *)
Theorem settles_from_any_state
    (self : Debouncer fmt) (w : World) (c : bool) (n k : nat) :
  (toQ (previous_time self) <= toQ (monotonic (ticks w)))%Q ->
  (forall i : nat, (i < n)%nat -> f (polls w + i)%nat = c) ->
  (1 <= k < n)%nat ->
  (toQ (interval self) <= elapsed monotonic w k)%Q ->
  forall m : nat, (k <= m < n)%nat ->
    value (after monotonic f self w (S m)) = c.
Proof.
  intros Hp Hf Hk Hel.
  assert (Hat : unstable_state (after monotonic f self w (S k)) = c
                /\ debounced_state (after monotonic f self w (S k)) = c).
  { destruct k as [|k]; [lia|].
    destruct (holding_invariant self w c n k Hp Hf) as (HU & HI & HJ); [lia|].
    rewrite after_S.
    set (s := after monotonic f self w (S k)) in *. clearbody s.
    destruct (update_flags monotonic f s
                {| ticks := (ticks w + S k)%nat;
                   polls := (polls w + S k)%nat |})
      as (HU' & HD' & _).
    set (s' := fst (update monotonic f s _)) in *. clearbody s'.
    cbn [ticks polls] in *. rewrite Hf in * by lia.
    split; [assumption|]. rewrite HD'.
    destruct (accepts s (monotonic (ticks w + S k)) c) eqn:A;
      [reflexivity|].
    destruct HJ as [HJ|HJ]; [assumption|].
    unfold accepts in A. unfold elapsed in Hel.
    rewrite HU, HI, eqb_reflx, fge_true in A
      by (unfold fsub; apply nearest_above; lra).
    cbn [andb] in A. apply negb_false_iff, eqb_prop in A. congruence. }
  destruct Hat as [HU HD].
  intros m Hm. unfold value. fold (debounced_state (after monotonic f self w (S m))).
  destruct (Nat.eq_dec m k) as [->|Hne]; [exact HD|].
  replace (S m) with (S k + S (m - k - 1))%nat by lia.
  rewrite after_add.
  destruct (rest_phase monotonic f (after monotonic f self w (S k))
              {| ticks := (ticks w + S k)%nat; polls := (polls w + S k)%nat |}
              c (n - S k) (m - k - 1) HU HD) as (_ & HD' & _); [| lia |].
  - intros j Hj. cbn [polls]. rewrite <- Nat.add_assoc. apply Hf. lia.
  - exact HD'.
Qed.

End Convergence.

(** ** The timestamp an instance starts with *)

Section IdleTimer.

Variable monotonic : nat -> float fmt.
Variable f : nat -> bool.

Local Open Scope bool_scope.

(** The state word [update] leaves, branch by branch. *)
Lemma update_word (self : Debouncer fmt) (w : World) :
  let now := monotonic (ticks w) in
  let current_state := f (polls w) in
  let cleared := Z.land (state self) (Z.lnot CHANGED_STATE) in
  state (fst (update monotonic f self w)) =
  if negb (Bool.eqb current_state (unstable_state self))
  then Z.lxor cleared UNSTABLE_STATE
  else if accepts self now current_state
       then Z.lor (Z.lxor cleared DEBOUNCED_STATE) CHANGED_STATE
       else cleared.
Proof.
  intros now current_state cleared.
  unfold update, bind, time_monotonic, call_f, ret, accepts.
  cbn [fst snd ticks polls]. fold now current_state.
  change (interval (__unset_state self CHANGED_STATE)) with (interval self).
  change (previous_time (__unset_state self CHANGED_STATE))
    with (previous_time self).
  assert (HU : __get_state (__unset_state self CHANGED_STATE) UNSTABLE_STATE
               = unstable_state self) by (flags; apply andb_true_r).
  assert (HD : __get_state (__unset_state self CHANGED_STATE) DEBOUNCED_STATE
               = debounced_state self) by (flags; apply andb_true_r).
  rewrite HU, HD.
  destruct (Bool.eqb current_state (unstable_state self));
    destruct (fge (fsub now (previous_time self)) (interval self));
    destruct (Bool.eqb current_state (debounced_state self));
    reflexivity.
Qed.

Lemma accepts_same_but_idle_timer
    (s1 s2 : Debouncer fmt) (now : float fmt) (current_state : bool) :
  same_but_idle_timer s1 s2 ->
  accepts s1 now current_state = accepts s2 now current_state.
Proof.
  intros (HS & HI & HT). unfold accepts.
  assert (HU : unstable_state s2 = unstable_state s1)
    by (unfold unstable_state, __get_state; now rewrite HS).
  assert (HD : debounced_state s2 = debounced_state s1)
    by (unfold debounced_state, __get_state; now rewrite HS).
  rewrite HU, HD, <- HI.
  destruct (Bool.eqb current_state (unstable_state s1)) eqn:EU;
    [|reflexivity].
  destruct (Bool.eqb current_state (debounced_state s1)) eqn:ED;
    [now rewrite !andb_false_r|].
  apply eqb_prop in EU. apply eqb_false_iff in ED.
  rewrite HT by congruence. reflexivity.
Qed.

Lemma update_same_but_idle_timer (s1 s2 : Debouncer fmt) (w : World) :
  same_but_idle_timer s1 s2 ->
  same_but_idle_timer (fst (update monotonic f s1 w))
                      (fst (update monotonic f s2 w)).
Proof.
  intros R. pose proof (accepts_same_but_idle_timer s1 s2
                          (monotonic (ticks w)) (f (polls w)) R) as HA.
  destruct R as (HS & HI & HT).
  assert (HU : unstable_state s2 = unstable_state s1)
    by (unfold unstable_state, __get_state; now rewrite HS).
  destruct (update_flags monotonic f s1 w) as (HU1 & HD1 & _ & HT1 & HI1).
  destruct (update_flags monotonic f s2 w) as (_ & _ & _ & HT2 & HI2).
  repeat split.
  - rewrite !update_word. now rewrite HS, HU, HA.
  - congruence.
  - intros Hne. rewrite HT1, HT2, HU, <- HA.
    destruct (Bool.eqb (f (polls w)) (unstable_state s1)) eqn:EU;
      [|reflexivity].
    destruct (accepts s1 (monotonic (ticks w)) (f (polls w))) eqn:A;
      [reflexivity|].
    cbn [negb orb]. apply HT. apply eqb_prop in EU. congruence.
Qed.

Lemma updates_same_but_idle_timer (n : nat) (s1 s2 : Debouncer fmt) (w : World) :
  same_but_idle_timer s1 s2 ->
  same_but_idle_timer (fst (updates monotonic f n s1 w))
                      (fst (updates monotonic f n s2 w)).
Proof.
  intros R. induction n as [|n IH]; [exact R|].
  rewrite !updates_snoc, !updates_world.
  now apply update_same_but_idle_timer.
Qed.

(** X11. The timestamp an instance is constructed with never decides anything:
    whatever value replaces the initial [previous_time], every later state
    word, and with it [value], [rose] and [fell], is the same. *)
Theorem initial_previous_time_irrelevant
    (arg : option (float fmt)) (n : nat) (w : World) (t : float fmt) :
  let self := fst (__init__ f arg w) in
  let w' := snd (__init__ f arg w) in
  let other := fst (updates monotonic f n (with_previous_time self t) w') in
  let this := fst (updates monotonic f n self w') in
  state other = state this
  /\ value other = value this
  /\ rose other = rose this
  /\ fell other = fell this.
Proof.
  intros self w' other this.
  assert (R : same_but_idle_timer (with_previous_time self t) self).
  { pose proof (init_flags f arg w) as (HD & HU & _). fold self in HD, HU.
    repeat split. intros Hne.
    change (unstable_state (with_previous_time self t))
      with (unstable_state self) in Hne.
    change (debounced_state (with_previous_time self t))
      with (debounced_state self) in Hne.
    congruence. }
  destruct (updates_same_but_idle_timer n _ _ w' R) as (HS & _).
  fold other this in HS.
  unfold value, rose, fell, __get_state. now rewrite HS.
Qed.

End IdleTimer.

(** ** What a report says about the input, and what the timer holds *)

Section Reports.

Variable monotonic : nat -> float fmt.
Variable f : nat -> bool.

Local Open Scope bool_scope.

(** X12. A report agrees with the input: when a call of [update] leaves [rose]
    true the sample it read was high, when it leaves [fell] true the sample
    was low, and in both cases no change is pending any more. *)
Theorem edge_report_matches_input (self : Debouncer fmt) (w : World) :
  let self' := fst (update monotonic f self w) in
  (rose self' = true ->
   f (polls w) = true /\ unstable_state self' = debounced_state self')
  /\ (fell self' = true ->
      f (polls w) = false /\ unstable_state self' = debounced_state self').
Proof.
  intros self'.
  destruct (update_flags monotonic f self w) as (HU & HD & HC & _).
  fold self' in HU, HD, HC.
  unfold rose, fell.
  fold (debounced_state self') (changed_state self').
  rewrite HU, HD, HC.
  destruct (accepts self (monotonic (ticks w)) (f (polls w)));
    destruct (f (polls w)), (debounced_state self);
    cbn; intuition congruence.
Qed.

(** X13. In an execution the timer holds the constructor's 0 or the clock
    reading of one of the calls made so far. *)
Theorem previous_time_is_a_reading (arg : option (float fmt)) (n : nat) :
  previous_time (fst (run monotonic f arg n boot)) = fzero
  \/ exists j : nat,
       (j < n)%nat
       /\ previous_time (fst (run monotonic f arg n boot)) = monotonic j.
Proof.
  induction n as [|n IH].
  - left. unfold run, bind.
    pose proof (init_flags f arg boot) as (_ & _ & _ & HT & _).
    destruct (__init__ f arg boot) as [s v]. exact HT.
  - rewrite run_snoc.
    pose proof (run_world monotonic f arg n) as HW.
    destruct (run monotonic f arg n boot) as [s v].
    cbn [fst snd] in *. subst v.
    destruct (update_flags monotonic f s {| ticks := n; polls := S n |})
      as (_ & _ & _ & HT & _).
    cbn [ticks polls] in HT. rewrite HT.
    destruct (_ || _).
    + right. exists n. split; [lia | reflexivity].
    + destruct IH as [IH | (j & Hj & IH)]; [now left|].
      right. exists j. split; [lia | exact IH].
Qed.

End Reports.

End WithFormat.

Arguments __set_state {_} _ _.
Arguments __unset_state {_} _ _.
Arguments __toggle_state {_} _ _.
Arguments __get_state {_} _ _.
Arguments debounced_state {_} _.
Arguments unstable_state {_} _.
Arguments changed_state {_} _.
Arguments value {_} _.
Arguments rose {_} _.
Arguments fell {_} _.
Arguments update {_} _ _ _.
Arguments run {_} _ _ _ _.
Arguments after {_} _ _ _ _ _.
Arguments monotone_clock {_} _.
Arguments bouncing_from {_} _ _ _ _ _.
Arguments changed_once {_} _ _ _ _ _.

(** ** The example clocks are monotone *)

Lemma scaled_clock_monotone (step : Q) :
  (0 <= step)%Q ->
  monotone_clock (fmt := binary64)
    (fun k : nat => (inject_Z (Z.of_nat k) * step)%Q).
Proof.
  intros Hs i j Hij. apply Binary64.round64_monotone.
  apply Qmult_le_compat_r; [|assumption].
  rewrite <- Zle_Qle. lia.
Qed.

Lemma fine_clock_monotone : monotone_clock fine_clock.
Proof. apply (scaled_clock_monotone (1 # 1024)). discriminate. Qed.

Lemma coarse_clock_monotone : monotone_clock coarse_clock.
Proof. apply (scaled_clock_monotone (1 # 128)). discriminate. Qed.

(** ** Concrete executions *)

(** Closes a comparison of concrete rationals or booleans. *)
Ltac by_evaluation :=
  vm_compute; first [ reflexivity | discriminate | intros; discriminate ].

(** Scenario A: interval 10 ms, input low at construction and high from
    then on; the first call leaves the value low, the call one reading of
    the slow clock (15.625 ms) later raises it. *)
Example scenario_a :
  let self0 := fst (run slow_clock low_then_high (Some ten_ms) 0 boot) in
  let self1 := fst (run slow_clock low_then_high (Some ten_ms) 1 boot) in
  let self2 := fst (run slow_clock low_then_high (Some ten_ms) 2 boot) in
  value self0 = false
  /\ (value self1 = false /\ rose self1 = false)
  /\ (value self2 = true /\ rose self2 = true /\ fell self2 = false).
Proof. vm_compute. repeat split. Qed.

(** Scenario B: the input bounces once within three readings of the fine
    clock and then stays high; the timer restarts at the call numbered 3
    (reading 2/1024 s) and the value rises at the call numbered 14 (reading
    13/1024 s, the first that is 10 ms later), not before. *)
Example scenario_b :
  let at_call k := fst (run fine_clock one_bounce None k boot) in
  (value (at_call 1%nat) = false /\ value (at_call 2%nat) = false
   /\ value (at_call 3%nat) = false /\ value (at_call 12%nat) = false)
  /\ (value (at_call 13%nat) = false /\ rose (at_call 13%nat) = false)
  /\ (value (at_call 14%nat) = true /\ rose (at_call 14%nat) = true)
  /\ (value (at_call 15%nat) = true /\ rose (at_call 15%nat) = false).
Proof. vm_compute. repeat split. Qed.

(** [ten_ms] is the default interval, the double nearest to 1/100. *)
Example ten_ms_is_default :
  ten_ms = default_interval binary64
  /\ (toQ ten_ms == 5764607523034235 # 576460752303423488)%Q.
Proof. split; [reflexivity | vm_compute; reflexivity]. Qed.

(** Scenario C: constructed on a high input. *)
Example scenario_c :
  let self := fst (__init__ binary64 always_high None boot) in
  value self = true /\ rose self = false /\ fell self = false.
Proof. vm_compute. repeat split. Qed.

(** The constructor reads the input once and not the clock. *)
Example construction_reads_once :
  snd (__init__ binary64 always_high None boot)
  = {| ticks := 0; polls := 1 |}.
Proof. reflexivity. Qed.

(** Rounding can carry the measured time up to the interval.  A rise is
    pending since the reading 2^-60 s, the interval is 1 s and the clock
    reads 1 s: the exact difference of the readings is below the interval,
    their float difference is 1.0, and [update] takes the rise over. *)
Example rounding_reaches_the_interval :
  let self := @mkDebouncer binary64 UNSTABLE_STATE (1 # 2 ^ 60)%Q 1%Q in
  let now : float binary64 := 1%Q in
  let self' := fst (update (fun _ => now) always_high self boot) in
  (toQ now - toQ (previous_time self) < toQ (interval self))%Q
  /\ (toQ (fsub now (previous_time self)) == 1)%Q
  /\ state self' = 7
  /\ value self' = true
  /\ rose self' = true.
Proof. vm_compute. repeat split. Qed.

(** The same on readings with nine decimals and the default interval: the
    doubles 0.012767605 and 0.002767605 differ by less than the double
    0.010, their float difference is that double, and [update] takes the
    rise over. *)
Example rounding_reaches_the_default_interval :
  let before : float binary64 := (2767605 # 1000000000)%Q in
  let now : float binary64 := (12767605 # 1000000000)%Q in
  let self := @mkDebouncer binary64 UNSTABLE_STATE before ten_ms in
  let self' := fst (update (fun _ => now) always_high self boot) in
  (toQ now - toQ before < toQ ten_ms)%Q
  /\ (toQ (fsub now before) == toQ ten_ms)%Q
  /\ value self' = true
  /\ rose self' = true.
Proof. vm_compute. repeat split. Qed.

(** ** Instances of the theorems *)

Lemma timer_restart_on_raw_change_witness :
  let self' :=
    fst (update fine_clock always_high (at_rest_low ten_ms) boot) in
  previous_time self' = fine_clock 0%nat
  /\ unstable_state self' = true
  /\ debounced_state self' = false
  /\ changed_state self' = false.
Proof.
  apply (timer_restart_on_raw_change binary64 fine_clock always_high
           (at_rest_low ten_ms) boot).
  by_evaluation.
Defined.

Lemma acceptance_condition_witness :
  let w := {| ticks := 3; polls := 3 |} in
  let self' :=
    fst (update coarse_clock always_high (pending_high ten_ms) w) in
  debounced_state self' = true
  /\ changed_state self' = true
  /\ previous_time self' = coarse_clock 3%nat.
Proof.
  apply (proj1 (acceptance_condition binary64 coarse_clock always_high
                  (pending_high ten_ms)
                  {| ticks := 3; polls := 3 |} eq_refl)).
  split; by_evaluation.
Defined.

(** After an accepted rise (call 12 of the execution) the input of
    [settle_then_chatter] bounces: low, low, high, high, low, one reading of
    the fine clock apart. *)
Lemma bouncing_after_an_edge :
  bouncing_from fine_clock settle_then_chatter
    (fst (run fine_clock settle_then_chatter None 12 boot))
    (snd (run fine_clock settle_then_chatter None 12 boot)) 5.
Proof.
  intros i Hi.
  assert (E : (i = 0 \/ i = 1 \/ i = 2 \/ i = 3 \/ i = 4)%nat) by lia.
  destruct E as [-> | [-> | [-> | [-> | ->]]]]; vm_compute;
    first [ left; reflexivity | right; reflexivity ].
Qed.

Lemma bounce_rejection_witness :
  let self := fst (run fine_clock settle_then_chatter None 12 boot) in
  let w := snd (run fine_clock settle_then_chatter None 12 boot) in
  let s := after fine_clock settle_then_chatter self w 5 in
  value self = true
  /\ debounced_state s = debounced_state self
  /\ value s = value self
  /\ rose s = false
  /\ fell s = false.
Proof.
  split; [reflexivity|].
  apply (bounce_rejection binary64 fine_clock settle_then_chatter
           (fst (run fine_clock settle_then_chatter None 12 boot))
           (snd (run fine_clock settle_then_chatter None 12 boot))
           5 bouncing_after_an_edge 4%nat).
  lia.
Defined.

Lemma changed_once_low_to_high (i : Q) (n : nat) :
  changed_once always_high (at_rest_low i) boot false n.
Proof. repeat split. Qed.

Lemma settle_acceptance_witness :
  let after := after coarse_clock always_high (at_rest_low ten_ms) boot in
  (value (after 1%nat) = false /\ rose (after 1%nat) = false
   /\ fell (after 1%nat) = false)
  /\ (value (after 2%nat) = false /\ rose (after 2%nat) = false
      /\ fell (after 2%nat) = false)
  /\ (value (after 3%nat) = true /\ rose (after 3%nat) = true
      /\ fell (after 3%nat) = false)
  /\ (value (after 4%nat) = true /\ rose (after 4%nat) = false
      /\ fell (after 4%nat) = false).
Proof.
  destruct (settle_acceptance binary64 coarse_clock always_high
              (at_rest_low ten_ms) boot false 5
              coarse_clock_monotone
              (changed_once_low_to_high ten_ms 5))
    as (Hsee & Hwait & Hflip).
  split; [apply Hsee; lia|].
  split; [apply (Hwait 1%nat); [lia | by_evaluation]|].
  destruct (Hflip 2%nat) as [Hnow Hlater].
  - lia.
  - by_evaluation.
  - intros j Hj. assert (j = 1%nat) as -> by lia. by_evaluation.
  - split; [exact Hnow | apply (Hlater 3%nat); lia].
Defined.

Lemma degenerate_interval_witness :
  let self := fst (run fine_clock low_then_high (Some 0%Q) 1 boot) in
  let w := snd (run fine_clock low_then_high (Some 0%Q) 1 boot) in
  let self' := fst (update fine_clock low_then_high self w) in
  interval self = 0%Q
  /\ debounced_state self = false
  /\ debounced_state self' = true
  /\ changed_state self' = true
  /\ rose self' = true
  /\ fell self' = false.
Proof.
  destruct (degenerate_interval binary64 fine_clock low_then_high 0%Q 1)
    as (_ & _ & HI & _ & Hacc).
  - by_evaluation.
  - exact fine_clock_monotone.
  - by_evaluation.
  - destruct Hacc as (HD & HC & HR & HF); [reflexivity | by_evaluation |].
    repeat split; assumption.
Defined.

Lemma late_clock_monotone : monotone_clock late_clock.
Proof.
  intros i j Hij. unfold late_clock.
  destruct i, j; cbn [Nat.eqb]; try lia; by_evaluation.
Qed.

(** C1 (as stated) fails on two counts.  With every call counted it fails in
    every format: with interval 0 the call that sees the change is made at
    elapsed time 0, which has reached the interval, yet that call only
    restarts the timer and the debounced value is still low after it.  With
    the elapsed time exact it fails for doubles: the change is seen at the
    reading 2^-60 s, the interval is 1 s and the next call reads 1 s; less
    than the interval has elapsed, but the float difference is 1.0 and the
    call flips the debounced value. *)
Lemma settle_acceptance_as_stated_fails :
  (~ exists fmt : Format, settle_acceptance_every_call fmt)
  /\ ~ settle_acceptance_exact_time binary64.
Proof.
  split.
  - intros [fmt H].
    destruct (H (fun _ => fzero) always_high
                (@mkDebouncer fmt 0 fzero fzero) boot false 1%nat)
      with (i := 0%nat) as (Hv & _).
    + intros i j _. apply Qle_refl.
    + repeat split.
    + lia.
    + unfold elapsed. cbn [interval]. rewrite (fzero_exact fmt). lra.
    + intros j Hj. lia.
    + vm_compute in Hv. discriminate.
  - intros H.
    assert (Hv : value (after late_clock always_high (at_rest_low 1%Q) boot 2)
                 = false).
    { apply (H late_clock always_high (at_rest_low 1%Q) boot false 2%nat
               late_clock_monotone (changed_once_low_to_high 1%Q 2) 1%nat).
      - lia.
      - by_evaluation. }
    vm_compute in Hv. discriminate.
Qed.

(** ** Instances of the further theorems *)

Lemma toggle_single_bit_negates_witness :
  __get_state (__toggle_state (at_rest_low ten_ms) (2 ^ 1)) (2 ^ 1)
  = negb (__get_state (at_rest_low ten_ms) (2 ^ 1)).
Proof.
  apply (toggle_single_bit_negates binary64 (at_rest_low ten_ms) 1).
  lia.
Defined.

Lemma disjoint_mask_frame_witness :
  let self := pending_high ten_ms in
  __get_state (__set_state self CHANGED_STATE) UNSTABLE_STATE
  = __get_state self UNSTABLE_STATE
  /\ __get_state (__unset_state self CHANGED_STATE) UNSTABLE_STATE
     = __get_state self UNSTABLE_STATE
  /\ __get_state (__toggle_state self CHANGED_STATE) UNSTABLE_STATE
     = __get_state self UNSTABLE_STATE.
Proof.
  apply (disjoint_mask_frame binary64 (pending_high ten_ms)
           CHANGED_STATE UNSTABLE_STATE).
  reflexivity.
Defined.

Lemma no_edge_on_consecutive_calls_witness :
  let w := {| ticks := 3; polls := 3 |} in
  let self := pending_high ten_ms in
  let self' := fst (update coarse_clock always_high self w) in
  let w' := snd (update coarse_clock always_high self w) in
  let self'' := fst (update coarse_clock always_high self' w') in
  changed_state self' = true
  /\ changed_state self'' = false
  /\ debounced_state self'' = debounced_state self'.
Proof.
  split; [reflexivity|].
  apply (no_edge_on_consecutive_calls binary64 coarse_clock always_high
           (pending_high ten_ms) {| ticks := 3; polls := 3 |}).
  reflexivity.
Defined.

Lemma edges_at_least_interval_apart_witness :
  let w := {| ticks := 0; polls := 1 |} in
  let self := at_rest_low ten_ms in
  changed_state (after coarse_clock pulse self w 3) = true
  /\ changed_state (after coarse_clock pulse self w 7) = true
  /\ (toQ (interval self)
      <= toQ (fsub (coarse_clock 6) (coarse_clock 2)))%Q.
Proof.
  split; [reflexivity|]. split; [reflexivity|].
  apply (edges_at_least_interval_apart binary64 coarse_clock pulse
           (at_rest_low ten_ms) {| ticks := 0; polls := 1 |}
           2%nat 6%nat coarse_clock_monotone).
  - lia.
  - reflexivity.
  - reflexivity.
Defined.

Lemma edge_backed_by_steady_samples_witness :
  changed_state (fst (run coarse_clock low_then_high None 3 boot)) = true
  /\ exists j : nat,
       (1 <= j <= 2)%nat
       /\ low_then_high j = negb (low_then_high (j - 1)%nat)
       /\ (forall i : nat, (j <= i <= 3)%nat ->
             low_then_high i
             = value (fst (run coarse_clock low_then_high None 3 boot)))
       /\ (toQ ten_ms
           <= toQ (fsub (coarse_clock 2) (coarse_clock (j - 1)%nat)))%Q.
Proof.
  split; [reflexivity|].
  apply (edge_backed_by_steady_samples binary64 coarse_clock low_then_high None 2).
  reflexivity.
Defined.

Lemma settles_from_any_state_witness :
  let w := {| ticks := 3; polls := 3 |} in
  let self := pending_high ten_ms in
  value (after fine_clock always_high self w 12) = true
  /\ value (after fine_clock always_high self w 20) = true.
Proof.
  assert (H : forall m : nat, (11 <= m < 20)%nat ->
            value (after fine_clock always_high (pending_high ten_ms)
                     {| ticks := 3; polls := 3 |} (S m)) = true).
  { apply (settles_from_any_state binary64 fine_clock always_high
             (pending_high ten_ms) {| ticks := 3; polls := 3 |}
             true 20 11).
    - by_evaluation.
    - intros i Hi. reflexivity.
    - lia.
    - by_evaluation. }
  split; [apply (H 11%nat); lia | apply (H 19%nat); lia].
Defined.
